(** * ploidy.c: sex-dependent ploidy of genomic regions

    A shallow embedding of [ploidy.c] (bcftools) and the properties of
    its parser, its accessors and its point query.

    Conventions of the embedding.
    - A C [int] is a [Z]; conversions that C performs silently (long to
      int, int to uint32_t) are written out.
    - A [char*] into a line is the suffix of the line it points at; the
      terminating NUL is the end of the Rocq string, and a NUL character
      inside a string is read as a terminator as well.
    - [error(...)] of bcftools prints its message and exits the process;
      a function that may call it returns an [outcome].
    - A write through a pointer outside the caller's buffer has no
      defined result; functions that index a caller's buffer return
      [option], [None] standing for such an access. *)

From Stdlib Require Import ZArith Ascii String.
From stdpp Require Import gmap strings list fin_maps.

Local Open Scope Z_scope.

(** ** Characters and scanning *)

Definition is_nul (c : ascii) : bool := (nat_of_ascii c =? 0)%nat.

(** [isspace] of <ctype.h> in the C locale: space, \t \n \v \f \r. *)
Definition isspace (c : ascii) : bool :=
  let n := nat_of_ascii c in
  ((n =? 32) || ((9 <=? n) && (n <=? 13)))%nat.

Arguments is_nul : simpl never.
Arguments isspace : simpl never.

(** [!*ss] *)
Definition at_nul (ss : string) : bool :=
  match ss with
  | EmptyString => true
  | String c _ => is_nul c
  end.

(** [while ( *ss && isspace( *ss) ) ss++;] *)
Fixpoint skip_space (ss : string) : string :=
  match ss with
  | String c r => if negb (is_nul c) && isspace c then skip_space r else ss
  | EmptyString => ss
  end.

(** [while ( *ss && !isspace( *ss) ) ss++;] *)
Fixpoint skip_nonspace (ss : string) : string :=
  match ss with
  | String c r => if negb (is_nul c) && negb (isspace c) then skip_nonspace r else ss
  | EmptyString => ss
  end.

(** [while ( *se && *se!='\r' && *se!='\n' ) se++;] *)
Fixpoint skip_to_eol (se : string) : string :=
  match se with
  | String c r =>
      if negb (is_nul c) && negb (nat_of_ascii c =? 13)%nat && negb (nat_of_ascii c =? 10)%nat
      then skip_to_eol r else se
  | EmptyString => se
  end.

(** Two pointers into the same line: [se - ss] and [se == ss]. *)
Definition ptr_diff (se ss : string) : nat := (String.length ss - String.length se)%nat.
Definition ptr_eqb (se ss : string) : bool := (String.length se =? String.length ss)%nat.

(** [kputsn(ss, n, &str)] after [str.l = 0]: the first [n] characters at
    [ss], NUL terminated. *)
Definition kputsn (ss : string) (n : nat) : string := substring 0 n ss.

(** The body of [for (i=0; i<3; i++)] in [ploidy_parse], run [n] times;
    [None] is the [return -2] inside the loop. *)
Fixpoint skip_fields (n : nat) (ss : string) : option string :=
  match n with
  | O => Some ss
  | S n' =>
      let ss := skip_nonspace ss in
      if at_nul ss then None
      else skip_fields n' (skip_space ss)
  end.

(** ** Integers *)

Definition INT_MAX : Z := 2147483647.
Definition LONG_MAX : Z := 9223372036854775807.
Definition LONG_MIN : Z := -9223372036854775808.

(** Conversion of a [long] to [int]: reduction modulo 2^32 into the
    signed range. *)
Definition to_int (v : Z) : Z := (v + 2^31) mod 2^32 - 2^31.

(** Conversion of an [int] to [uint32_t]. *)
Definition to_u32 (v : Z) : Z := v mod 2^32.

Definition is_digit (c : ascii) : bool :=
  let n := nat_of_ascii c in ((48 <=? n) && (n <=? 57))%nat.

Fixpoint strtol_digits (acc : Z) (s : string) : Z * string :=
  match s with
  | String c r =>
      if is_digit c
      then strtol_digits (acc * 10 + (Z.of_nat (nat_of_ascii c) - 48)) r
      else (acc, s)
  | EmptyString => (acc, s)
  end.

(** [strtol(nptr, &endptr, 10)] of the C library: white space, an
    optional sign, decimal digits; the value is clamped to the range of
    [long]; with no digit, no conversion is done and [endptr] is [nptr]. *)
Definition strtol (nptr : string) : Z * string :=
  let s := skip_space nptr in
  let '(neg, s1) :=
    match s with
    | String "-"%char r => (true, r)
    | String "+"%char r => (false, r)
    | _ => (false, s)
    end in
  let '(v, endptr) := strtol_digits 0 s1 in
  if ptr_eqb endptr s1 then (0, nptr)
  else (Z.max LONG_MIN (Z.min LONG_MAX (if neg then - v else v)), endptr).

(** ** Outcome of a call that may end in [error(...)] *)

Inductive outcome (A : Type) : Type :=
  | Return (a : A)
  | Exit (msg : string).
Arguments Return {A} a.
Arguments Exit {A} msg.

Definition obind {A B} (m : outcome A) (k : A → outcome B) : outcome B :=
  match m with
  | Return a => k a
  | Exit msg => Exit msg
  end.

(** ** Data *)

(** [reg_t] of regidx.h; [start] and [end] are uint32_t. *)
Record reg_t := { start : Z; end_ : Z }.

(** [sex_ploidy_t] of ploidy.h, the payload of a region. *)
Record sex_ploidy_t := { sex : Z; ploidy : Z }.

(** Modelled from the spec: the interval index of htslib (regidx.h) is
    not part of ploidy.c.  It stores, for every sequence name, the
    regions handed to it together with their payloads, in the order of
    insertion; the regions and payloads of a sequence run in parallel
    and are kept here as one list of pairs. *)
Record regidx_t := { seq2regs : gmap string (list (reg_t * sex_ploidy_t)) }.

(** [struct _ploidy_t].  [id2sex] is the array of [msex] pointers, NULL
    where nothing was stored. *)
Record ploidy_t := {
  nsex : Z; msex : Z;
  dflt : Z; min : Z; max : Z;
  idx : regidx_t;
  sex2id : gmap string Z;
  id2sex : list (option string);
  tmp_str : string
}.

#[export] Instance reg_t_eq_dec : EqDecision reg_t.
Proof. solve_decision. Defined.
#[export] Instance sex_ploidy_t_eq_dec : EqDecision sex_ploidy_t.
Proof. solve_decision. Defined.

(** ** khash_str2int *)

(** [khash_str2int_get(hash, str, &value)]: [Some value] for the return
    value 0, [None] for -1. *)
Definition khash_str2int_get (hash : gmap string Z) (str : string) : option Z :=
  hash !! str.

(** [khash_str2int_inc(hash, str)]: a new key gets the number of keys
    present before it; the value of the key is returned. *)
Definition khash_str2int_inc (hash : gmap string Z) (str : string) : Z * gmap string Z :=
  match hash !! str with
  | Some v => (v, hash)
  | None => let v := Z.of_nat (size hash) in (v, <[str:=v]> hash)
  end.

(** [kroundup32(x)] of htslib, on 32 bits. *)
Definition kroundup32 (x : Z) : Z :=
  let x := to_u32 (x - 1) in
  let x := Z.lor x (Z.shiftr x 1) in
  let x := Z.lor x (Z.shiftr x 2) in
  let x := Z.lor x (Z.shiftr x 4) in
  let x := Z.lor x (Z.shiftr x 8) in
  let x := Z.lor x (Z.shiftr x 16) in
  to_int (x + 1).

(** [hts_expand0(char*, n, m, ptr)]: grow [ptr] to [kroundup32(n)]
    zeroed slots when [n > m]. *)
Definition hts_expand0 (n m : Z) (ptr : list (option string)) : Z * list (option string) :=
  if m <? n then
    let m' := kroundup32 n in
    (m', ptr ++ replicate (Z.to_nat (m' - m)) None)
  else (m, ptr).

(** The registration shared by [ploidy_parse] and [ploidy_add_sex]:
<<
    ploidy->nsex++;
    hts_expand0(char*,ploidy->nsex,ploidy->msex,ploidy->id2sex);
    ploidy->id2sex[ploidy->nsex-1] = strdup(name);
    id = khash_str2int_inc(ploidy->sex2id, ploidy->id2sex[ploidy->nsex-1]);
>> *)
Definition register_sex (pld : ploidy_t) (name : string) : Z * ploidy_t :=
  let nsex' := nsex pld + 1 in
  let '(msex', arr) := hts_expand0 nsex' (msex pld) (id2sex pld) in
  let arr' := <[Z.to_nat (nsex' - 1) := Some name]> arr in
  let '(id, hash) := khash_str2int_inc (sex2id pld) name in
  (id, {| nsex := nsex'; msex := msex'; dflt := dflt pld; min := min pld; max := max pld;
          idx := idx pld; sex2id := hash; id2sex := arr'; tmp_str := tmp_str pld |}).

Definition set_tmp_str (pld : ploidy_t) (s : string) : ploidy_t :=
  {| nsex := nsex pld; msex := msex pld; dflt := dflt pld; min := min pld; max := max pld;
     idx := idx pld; sex2id := sex2id pld; id2sex := id2sex pld; tmp_str := s |}.

Definition set_min_max (pld : ploidy_t) (mn mx : Z) : ploidy_t :=
  {| nsex := nsex pld; msex := msex pld; dflt := dflt pld; min := mn; max := mx;
     idx := idx pld; sex2id := sex2id pld; id2sex := id2sex pld; tmp_str := tmp_str pld |}.

Definition set_idx (pld : ploidy_t) (i : regidx_t) : ploidy_t :=
  {| nsex := nsex pld; msex := msex pld; dflt := dflt pld; min := min pld; max := max pld;
     idx := i; sex2id := sex2id pld; id2sex := id2sex pld; tmp_str := tmp_str pld |}.

(** ** The record parser *)

(** What [ploidy_parse] leaves behind when it returns: the return value,
    the out parameters [chr_beg..chr_end], [reg] and [payload], and the
    table [usr]. *)
Record parse_out := {
  po_ret : Z;
  po_chr : string;
  po_reg : reg_t;
  po_payload : sex_ploidy_t;
  po_usr : ploidy_t
}.

Definition could_not_parse (line : string) : string :=
  "Could not parse: " +:+ line +:+ String (ascii_of_nat 10) EmptyString.

Section Parser.

(** [regidx_parse_tab] of htslib fills CHR,FROM,TO: its return value and
    the sequence name and region it found.  It is not part of ploidy.c
    and stays a parameter. *)
Variable regidx_parse_tab : string → Z * (string * reg_t).

Definition ploidy_parse (line : string) (payload : sex_ploidy_t) (usr : ploidy_t)
  : outcome parse_out :=
  let pld := usr in
  (* Fill CHR,FROM,TO *)
  let '(ret, (chr, reg)) := regidx_parse_tab line in
  if negb (ret =? 0) then
    Return {| po_ret := ret; po_chr := chr; po_reg := reg; po_payload := payload; po_usr := pld |}
  else
  let wrong_fields :=
    Return {| po_ret := -2; po_chr := chr; po_reg := reg; po_payload := payload; po_usr := pld |} in
  (* Skip the fields already parsed by regidx_parse_tab *)
  let ss := skip_space line in
  match skip_fields 3 ss with
  | None => wrong_fields
  | Some ss =>
  if at_nul ss then wrong_fields else
  (* Parse the payload *)
  let se := skip_nonspace ss in
  if at_nul se || ptr_eqb se ss then Exit (could_not_parse line) else
  let pld := set_tmp_str pld (kputsn ss (ptr_diff se ss)) in
  let '(sp_sex, pld) :=
    match khash_str2int_get (sex2id pld) (tmp_str pld) with
    | Some id => (id, pld)
    | None => register_sex pld (tmp_str pld)
    end in
  let ss := se in
  let se := skip_space se in
  if at_nul se then Exit (could_not_parse line) else
  let '(v, se) := strtol ss in
  let sp_ploidy := to_int v in
  if ptr_eqb ss se then Exit (could_not_parse line) else
  let mn := if sp_ploidy <? min pld then sp_ploidy else min pld in
  let mx := if max pld <? sp_ploidy then sp_ploidy else max pld in
  Return {| po_ret := 0; po_chr := chr; po_reg := reg;
            po_payload := {| sex := sp_sex; ploidy := sp_ploidy |};
            po_usr := set_min_max pld mn mx |}
  end.

(** ** The interval index *)

(** Modelled from the spec: [regidx_insert(idx, line)] of htslib with
    [ploidy_parse] as the parser of the index.  A NULL line ends the
    input.  The parser's return value 0 stores the region with its
    payload after the regions of its sequence, -1 skips the line, any
    other value is a failure (-1).  The table is the [usr] of the
    parser and holds the index, so both are updated together. *)
Definition regidx_insert (pld : ploidy_t) (line : option string) : outcome (Z * ploidy_t) :=
  match line with
  | None => Return (0, pld)
  | Some line =>
      obind (ploidy_parse line {| sex := 0; ploidy := 0 |} pld) (λ po,
        let pld := po_usr po in
        if po_ret po =? 0 then
          let regs := default [] (seq2regs (idx pld) !! po_chr po) in
          let regs := regs ++ [(po_reg po, po_payload po)] in
          Return (0, set_idx pld {| seq2regs := <[po_chr po := regs]> (seq2regs (idx pld)) |})
        else if po_ret po =? -1 then Return (0, pld)
        else Return (-1, pld))
  end.

(** [pld->dflt = pld->min = pld->max = dflt; pld->sex2id = khash_str2int_init();]
    on the zeroed structure, with the empty index of [regidx_init]. *)
Definition ploidy_new (d : Z) : ploidy_t :=
  {| nsex := 0; msex := 0; dflt := d; min := d; max := d;
     idx := {| seq2regs := ∅ |}; sex2id := ∅; id2sex := []; tmp_str := EmptyString |}.

(** Modelled from the spec: the reading loop of [regidx_init(fname,...)]
    of htslib, which stops at the first line whose insertion fails;
    [None] is the NULL it returns then. *)
Fixpoint regidx_init_lines (lines : list string) (pld : ploidy_t) : outcome (option ploidy_t) :=
  match lines with
  | [] => obind (regidx_insert pld None) (λ r, Return (Some r.2))
  | line :: lines =>
      obind (regidx_insert pld (Some line)) (λ r,
        if negb (r.1 =? 0) then Return None
        else regidx_init_lines lines r.2)
  end.

(** [ploidy_init(fname, dflt)].  [file] is what opening [fname] gives:
    [None] when it cannot be opened, else its lines.  The result is the
    table, or [None] for NULL. *)
Definition ploidy_init (file : option (list string)) (d : Z) : outcome (option ploidy_t) :=
  let pld := ploidy_new d in
  match file with
  | None => Return None
  | Some lines => regidx_init_lines lines pld
  end.

(** The [while ( *ss )] loop of [ploidy_init_string].  Every turn with
    [*ss] non zero moves [ss] forward, so [String.length ss] turns are
    enough; see [init_string_loop_fuel]. *)
Fixpoint init_string_loop (fuel : nat) (ss : string) (pld : ploidy_t) : outcome ploidy_t :=
  match fuel with
  | O => Return pld
  | S fuel' =>
      if at_nul ss then Return pld else
      let ss := skip_space ss in
      let se := skip_to_eol ss in
      let tmp := kputsn ss (ptr_diff se ss) in
      (* the return value of regidx_insert is dropped *)
      obind (regidx_insert pld (Some tmp)) (λ r,
        let se := skip_space se in
        init_string_loop fuel' se r.2)
  end.

Definition ploidy_init_string (str : string) (d : Z) : outcome (option ploidy_t) :=
  let pld := ploidy_new d in
  obind (init_string_loop (String.length str) str pld) (λ pld,
  obind (regidx_insert pld None) (λ r,
  Return (Some r.2))).

End Parser.

(** ** The iterator of the index *)

(** [regitr_t] of regidx.h. *)
Record regitr_t := {
  itr_i : Z; itr_n : Z;
  itr_reg : list reg_t;
  itr_payload : list sex_ploidy_t
}.

(** [REGITR_OVERLAP(itr,from,to)]:
    [itr.i < itr.n && REGITR_START(itr)<=to && REGITR_END(itr)>=from]. *)
Definition REGITR_OVERLAP (itr : regitr_t) (from to : Z) : bool :=
  (itr_i itr <? itr_n itr) &&
  match itr_reg itr !! Z.to_nat (itr_i itr) with
  | Some r => (start r <=? to) && (from <=? end_ r)
  | None => false
  end.

(** [REGITR_PAYLOAD(itr,sex_ploidy_t)] *)
Definition REGITR_PAYLOAD (itr : regitr_t) : option sex_ploidy_t :=
  itr_payload itr !! Z.to_nat (itr_i itr).

Definition itr_next (itr : regitr_t) : regitr_t :=
  {| itr_i := itr_i itr + 1; itr_n := itr_n itr;
     itr_reg := itr_reg itr; itr_payload := itr_payload itr |}.

Definition reg_overlaps (from to : Z) (r : reg_t) : bool :=
  (start r <=? to) && (from <=? end_ r).

(** The regions of a sequence from the first one that overlaps. *)
Fixpoint first_overlap (from to : Z) (l : list (reg_t * sex_ploidy_t))
  : option (list (reg_t * sex_ploidy_t)) :=
  match l with
  | [] => None
  | rp :: l' => if reg_overlaps from to rp.1 then Some l else first_overlap from to l'
  end.

(** Modelled from the spec: [regidx_overlap(idx, chr, from, to, &itr)] of
    htslib returns 0 when no region of [chr] overlaps [from..to], else 1
    with the iterator placed on the first region that does. *)
Definition regidx_overlap (i : regidx_t) (chr : string) (from to : Z) : Z * regitr_t :=
  let none := (0, {| itr_i := 0; itr_n := 0; itr_reg := []; itr_payload := [] |}) in
  match seq2regs i !! chr with
  | None => none
  | Some l =>
      match first_overlap from to l with
      | None => none
      | Some l' =>
          (1, {| itr_i := 0; itr_n := Z.of_nat (length l');
                 itr_reg := l'.*1; itr_payload := l'.*2 |})
      end
  end.

(** ** The point query *)

(** [buf[i] = v] on a caller's buffer of [length buf] ints. *)
Definition store (buf : list Z) (i v : Z) : option (list Z) :=
  if (0 <=? i) && (i <? Z.of_nat (length buf))
  then Some (<[Z.to_nat i := v]> buf)
  else None.

(** The same through a pointer that may be NULL, as in
    [if ( sex2ploidy ) sex2ploidy[i] = v;]. *)
Definition store_opt (buf : option (list Z)) (i v : Z) : option (option (list Z)) :=
  match buf with
  | None => Some None
  | Some b => Some <$> store b i v
  end.

(** [for (i=...; i<ploidy->nsex; i++) sex2ploidy[i] = ploidy->dflt;]
    with [n] turns left. *)
Fixpoint fill_dflt (n : nat) (i : Z) (d : Z) (buf : list Z) : option (list Z) :=
  match n with
  | O => Some buf
  | S n' => buf ← store buf i d; fill_dflt n' (i + 1) d buf
  end.

Definition fill_dflt_opt (pld : ploidy_t) (buf : option (list Z)) : option (option (list Z)) :=
  match buf with
  | None => Some None
  | Some b => Some <$> fill_dflt (Z.to_nat (nsex pld)) 0 (dflt pld) b
  end.

(** The three output parameters of [ploidy_query]: [None] is a NULL
    pointer, [Some] holds what the pointer points at. *)
Record query_out := {
  q_sex2ploidy : option (list Z);
  q_min : option Z;
  q_max : option Z
}.

(** [!p] *)
Definition is_null {A} (p : option A) : bool :=
  match p with
  | None => true
  | Some _ => false
  end.

(** [if ( p ) *p = v;] *)
Definition assign (p : option Z) (v : Z) : option Z :=
  match p with
  | None => None
  | Some _ => Some v
  end.

(** The [while ( REGITR_OVERLAP(itr,pos,pos) )] loop; [pos] has been
    converted to uint32_t for the comparison with the region bounds.
    The loop leaves when [itr.i] reaches [itr.n], so [itr.n - itr.i]
    turns are enough; see [query_loop_fuel]. *)
Fixpoint query_loop (fuel : nat) (d pos : Z) (itr : regitr_t)
    (sex2ploidy : option (list Z)) (_min _max : Z)
  : option (option (list Z) * Z * Z) :=
  match fuel with
  | O => Some (sex2ploidy, _min, _max)
  | S fuel' =>
      if REGITR_OVERLAP itr pos pos then
        sp ← REGITR_PAYLOAD itr;
        let pld := ploidy sp in
        if negb (pld =? d) then
          sex2ploidy ← store_opt sex2ploidy (sex sp) pld;
          let _min := if pld <? _min then pld else _min in
          let _max := if _max <? pld then pld else _max in
          query_loop fuel' d pos (itr_next itr) sex2ploidy _min _max
        else query_loop fuel' d pos (itr_next itr) sex2ploidy _min _max
      else Some (sex2ploidy, _min, _max)
  end.

Definition ploidy_query (pld : ploidy_t) (seq : string) (pos : Z) (out : query_out)
  : option (Z * query_out) :=
  let '(ret, itr) := regidx_overlap (idx pld) seq (to_u32 pos) (to_u32 pos) in
  if is_null (q_sex2ploidy out) && is_null (q_min out) && is_null (q_max out)
  then Some (ret, out)
  else
    if ret =? 0 then
      (* no overlap *)
      buf ← fill_dflt_opt pld (q_sex2ploidy out);
      Some (0, {| q_sex2ploidy := buf;
                  q_min := assign (q_min out) (dflt pld);
                  q_max := assign (q_max out) (dflt pld) |})
    else
      buf ← fill_dflt_opt pld (q_sex2ploidy out);
      '(buf, _min, _max) ← query_loop (Z.to_nat (itr_n itr - itr_i itr)) (dflt pld)
                              (to_u32 pos) itr buf INT_MAX (-1);
      let '(_min, _max) := if _max =? -1 then (dflt pld, dflt pld) else (_min, _max) in
      Some (1, {| q_sex2ploidy := buf;
                  q_min := assign (q_min out) _min;
                  q_max := assign (q_max out) _max |}).

(** ** Accessors *)

Definition ploidy_regions (pld : ploidy_t) : regidx_t := idx pld.

Definition ploidy_nsex (pld : ploidy_t) : Z := nsex pld.

(** [None] is the NULL returned for an id out of range (and the NULL
    found in a slot never written). *)
Definition ploidy_id2sex (pld : ploidy_t) (id : Z) : option string :=
  if (id <? 0) || (nsex pld <=? id) then None
  else mjoin (id2sex pld !! Z.to_nat id).

Definition ploidy_sex2id (pld : ploidy_t) (name : string) : Z :=
  match khash_str2int_get (sex2id pld) name with
  | None => -1
  | Some id => id
  end.

Definition ploidy_add_sex (pld : ploidy_t) (name : string) : Z * ploidy_t :=
  match khash_str2int_get (sex2id pld) name with
  | Some id => (id, pld)
  | None => register_sex pld name
  end.

Definition ploidy_max (pld : ploidy_t) : Z :=
  if max pld <? dflt pld then dflt pld else max pld.

Definition ploidy_min (pld : ploidy_t) : Z :=
  if dflt pld <? min pld then dflt pld else min pld.

(** ** An instance of the tabular parser *)

(** Modelled from the spec: a parser of the first three fields,
    [<chrom> <start> <end>], standing for [regidx_parse_tab] where a
    concrete one is needed.  Blank lines and comments are skipped (-1),
    a line without a numeric start is malformed (-2), a missing end is
    the start, and coordinates are kept as written. *)
Definition parse_tab (line : string) : Z * (string * reg_t) :=
  let none := ("", {| start := 0; end_ := 0 |}) in
  let ss := skip_space line in
  if at_nul ss then (-1, none) else
  match ss with
  | String "#"%char _ => (-1, none)
  | _ =>
    let se := skip_nonspace ss in
    if at_nul se then (-2, none) else
    let chr := kputsn ss (ptr_diff se ss) in
    let '(from, se1) := strtol se in
    if ptr_eqb se se1 then (-2, none) else
    let '(to, se2) := strtol se1 in
    if ptr_eqb se1 se2
    then (0, (chr, {| start := to_u32 from; end_ := to_u32 from |}))
    else (0, (chr, {| start := to_u32 from; end_ := to_u32 to |}))
  end.

Definition nl : string := String (ascii_of_nat 10) EmptyString.

(** ** Tables of the examples *)

Definition lineM1 : string := "chrX 0 155270560 M 1".
Definition lineF2 : string := "chrX 0 155270560 F 2".

(** Scenario B: M has ploidy 1 on chrX, F has the default 2. *)
Definition scenarioB : string := lineM1 +:+ nl +:+ lineF2 +:+ nl.

(** Two records of one sex on the same region, the second one at the
    default. *)
Definition sameSex : string :=
  "chrX 1 10 M 1" +:+ nl +:+ "chrX 1 10 M 2" +:+ nl.

Definition built (str : string) (d : Z) : ploidy_t :=
  match ploidy_init_string parse_tab str d with
  | Return (Some pld) => pld
  | _ => ploidy_new d
  end.

Definition tableB : ploidy_t := built scenarioB 2.
Definition tableSameSex : ploidy_t := built sameSex 2.

(** One record at the default. *)
Definition tableDefault : ploidy_t := built ("chrX 1 10 F 2" +:+ nl) 2.

(** The first record of scenario B alone. *)
Definition tableM : ploidy_t := built lineM1 2.

(** A line with coordinates and nothing else. *)
Definition shortLine : string := "chr1 100 200".

(** A line whose start is not a number, and a preset string with it. *)
Definition badLine : string := "chrX x 10 M 1".
Definition badPreset : string := lineM1 +:+ nl +:+ badLine +:+ nl.

(** A tabular parser that answers [v] on [line] and is [tab] elsewhere. *)
Definition tab_override (tab : string → Z * (string * reg_t)) (line : string)
    (v : Z * (string * reg_t)) : string → Z * (string * reg_t) :=
  λ l, if decide (l = line) then v else tab l.

(** The table of scenario B when the regions of its two lines are [r1]
    and [r2]. *)
Definition scenarioB_table (r1 r2 : reg_t) : ploidy_t :=
  {| nsex := 2; msex := 2; dflt := 2; min := 1; max := 2;
     idx := {| seq2regs :=
                 {[ "chrX" := [(r1, {| sex := 0; ploidy := 1 |});
                               (r2, {| sex := 1; ploidy := 2 |})] ]} |};
     sex2id := <["F" := 1]> {[ "M" := 0 ]};
     id2sex := [Some "M"; Some "F"];
     tmp_str := "F" |}.

(** The payload buffer of the index before a line is parsed. *)
Definition payload0 : sex_ploidy_t := {| sex := 0; ploidy := 0 |}.

(** Outputs of a query with all three asked for. *)
Definition out3 : query_out :=
  {| q_sex2ploidy := Some [7; 7]; q_min := Some 9; q_max := Some 9 |}.

(** ** Notions used by the statements *)

(** The white-space delimited tokens of a line, read up to its NUL;
    [cur] holds the characters of the token being read. *)
Definition flush (cur : string) : list string :=
  match cur with
  | EmptyString => []
  | _ => [cur]
  end.

Fixpoint tokens_from (cur : string) (s : string) : list string :=
  match s with
  | EmptyString => flush cur
  | String c r =>
      if is_nul c then flush cur
      else if isspace c then flush cur ++ tokens_from EmptyString r
      else tokens_from (cur +:+ String c EmptyString) r
  end.

Definition tokens (line : string) : list string := tokens_from EmptyString line.

(** The regions stored for a sequence, with their payloads. *)
Definition stored (pld : ploidy_t) (seq : string) : list (reg_t * sex_ploidy_t) :=
  default [] (seq2regs (idx pld) !! seq).

(** A stored region contains the queried position. *)
Definition covers (pos : Z) (r : reg_t) : Prop :=
  start r ≤ to_u32 pos ∧ to_u32 pos ≤ end_ r.

(** The payloads of the leading regions of [l] that overlap. *)
Fixpoint overlap_run (from to : Z) (l : list (reg_t * sex_ploidy_t)) : list sex_ploidy_t :=
  match l with
  | [] => []
  | rp :: l' => if reg_overlaps from to rp.1 then rp.2 :: overlap_run from to l' else []
  end.

(** The records a query at [pos] goes through, in order: from the first
    stored region that covers [pos], as long as the regions cover it. *)
Definition visited (pld : ploidy_t) (seq : string) (pos : Z) : list sex_ploidy_t :=
  match first_overlap (to_u32 pos) (to_u32 pos) (stored pld seq) with
  | Some l => overlap_run (to_u32 pos) (to_u32 pos) l
  | None => []
  end.

(** The reduction of the query loop over the records it goes through. *)
Fixpoint reduce (d : Z) (recs : list sex_ploidy_t) (buf : option (list Z)) (_min _max : Z)
  : option (option (list Z) * Z * Z) :=
  match recs with
  | [] => Some (buf, _min, _max)
  | sp :: recs =>
      if negb (ploidy sp =? d) then
        buf ← store_opt buf (sex sp) (ploidy sp);
        reduce d recs buf (if ploidy sp <? _min then ploidy sp else _min)
                          (if _max <? ploidy sp then ploidy sp else _max)
      else reduce d recs buf _min _max
  end.

(** The non-default records of sex [s] among [recs]. *)
Definition non_default (d s : Z) (recs : list sex_ploidy_t) : list sex_ploidy_t :=
  filter (λ sp, sex sp = s ∧ ploidy sp ≠ d) recs.

(** What the slot of sex [s] holds after the reduction: the ploidy of
    the last non-default record of [s], the default without one. *)
Definition slot_value (d s : Z) (recs : list sex_ploidy_t) : Z :=
  match last (non_default d s recs) with
  | Some sp => ploidy sp
  | None => d
  end.

(** The vector fits the caller's buffer, when one is passed. *)
Definition fits (pld : ploidy_t) (buf : option (list Z)) : Prop :=
  match buf with
  | None => True
  | Some b => nsex pld ≤ Z.of_nat (length b)
  end.

(** The first [nsex] slots set to the default, the rest untouched. *)
Definition filled (pld : ploidy_t) (b : list Z) : list Z :=
  replicate (Z.to_nat (nsex pld)) (dflt pld) ++ drop (Z.to_nat (nsex pld)) b.

(** The collapse after the loop: [if ( _max==-1 ) _max = _min = dflt]. *)
Definition collapse (d : Z) (mn mx : Z) : Z * Z :=
  if mx =? -1 then (d, d) else (mn, mx).

(** The ids of the registry are dense: the dictionary holds [nsex]
    names with ids below [nsex]. *)
Definition registry_ok (pld : ploidy_t) : Prop :=
  nsex pld = Z.of_nat (size (sex2id pld)) ∧
  ∀ k v, sex2id pld !! k = Some v → 0 ≤ v < nsex pld.

(** Every stored record carries an id of the registry. *)
Definition records_ok (pld : ploidy_t) : Prop :=
  ∀ seq rp, rp ∈ stored pld seq → 0 ≤ sex rp.2 < nsex pld.

(** What happened to a table: records parsed and sexes added. *)
Inductive event :=
  | EvRecord (line : string)
  | EvAddSex (name : string).

Fixpoint records (h : list event) : nat :=
  match h with
  | [] => O
  | EvRecord _ :: h => S (records h)
  | EvAddSex _ :: h => records h
  end.

(** The names registered by a history: the sex token (fourth token) of
    every record parsed and every name given to [ploidy_add_sex]. *)
Fixpoint registered (h : list event) : gset string :=
  match h with
  | [] => ∅
  | EvRecord line :: h => match tokens line !! 3%nat with
                         | Some t => {[ t ]} ∪ registered h
                         | None => registered h
                         end
  | EvAddSex name :: h => {[ name ]} ∪ registered h
  end.

Section Reachable.

Variable regidx_parse_tab : string → Z * (string * reg_t).

(** The first line given to the parser leaves it with return value 0. *)
Definition parse_ok (line : option string) (pld : ploidy_t) : bool :=
  match line with
  | None => false
  | Some line =>
      match ploidy_parse regidx_parse_tab line {| sex := 0; ploidy := 0 |} pld with
      | Return po => po_ret po =? 0
      | Exit _ => false
      end
  end.

Definition log_line (line : option string) (pld : ploidy_t) (h : list event) : list event :=
  match line with
  | Some l => if parse_ok line pld then EvRecord l :: h else h
  | None => h
  end.

(** The tables that construction with default [d] and later calls of
    [ploidy_add_sex] can produce, with their history. *)
Inductive reachable (d : Z) : list event → ploidy_t → Prop :=
  | reach_new : reachable d [] (ploidy_new d)
  | reach_insert h pld line r pld' :
      reachable d h pld →
      regidx_insert regidx_parse_tab pld line = Return (r, pld') →
      reachable d (log_line line pld h) pld'
  | reach_add_sex h pld name :
      reachable d h pld →
      reachable d (EvAddSex name :: h) (ploidy_add_sex pld name).2.


End Reachable.

(** ** Further notions *)

(** The array of names mirrors the dictionary: it has [msex] slots, the
    first [nsex] of them hold a name, and a name has id [id] exactly
    when slot [id] holds it. *)
Definition id2sex_ok (pld : ploidy_t) : Prop :=
  length (id2sex pld) = Z.to_nat (msex pld) ∧ nsex pld ≤ msex pld ∧
  (∀ id, 0 ≤ id < nsex pld → ∃ name, id2sex pld !! Z.to_nat id = Some (Some name)) ∧
  ∀ name id, sex2id pld !! name = Some id ↔
             0 ≤ id < nsex pld ∧ id2sex pld !! Z.to_nat id = Some (Some name).

(** Distinct names have distinct ids. *)
Definition ids_injective (pld : ploidy_t) : Prop :=
  ∀ a b id, sex2id pld !! a = Some id → sex2id pld !! b = Some id → a = b.

(** The bounds of the table enclose the default and the ploidy of every
    stored record, and every stored ploidy is an [int]. *)
Definition bounds_ok (pld : ploidy_t) : Prop :=
  min pld ≤ dflt pld ≤ max pld ∧
  ∀ seq rp, rp ∈ stored pld seq →
    min pld ≤ ploidy rp.2 ≤ max pld ∧ - 2^31 ≤ ploidy rp.2 ≤ INT_MAX.

(** The ploidies of the records that differ from the default. *)
Definition nd_ploidies (d : Z) (recs : list sex_ploidy_t) : list Z :=
  ploidy <$> filter (λ sp, ploidy sp ≠ d) recs.

(** The lines of a preset string, each followed by [sep]. *)
Fixpoint unlines (sep : string) (lines : list string) : string :=
  match lines with
  | [] => EmptyString
  | l :: lines => l +:+ sep +:+ unlines sep lines
  end.

(** No NUL, carriage return or line feed in the string. *)
Fixpoint no_eol (s : string) : bool :=
  match s with
  | EmptyString => true
  | String c r =>
      negb (is_nul c) && negb (nat_of_ascii c =? 13)%nat && negb (nat_of_ascii c =? 10)%nat
      && no_eol r
  end.

(** A line of a preset: not empty, no white space in front, no line
    break inside. *)
Definition plain_line (l : string) : bool :=
  match l with
  | EmptyString => false
  | String c _ => negb (isspace c) && no_eol l
  end.

Fixpoint all_space (s : string) : bool :=
  match s with
  | EmptyString => true
  | String c r => isspace c && all_space r
  end.

(** A line separator: white space that starts with a line break. *)
Definition is_eol (sep : string) : bool :=
  match sep with
  | EmptyString => false
  | String c _ => ((nat_of_ascii c =? 13) || (nat_of_ascii c =? 10))%nat && all_space sep
  end.

Section Lines.

Variable regidx_parse_tab : string → Z * (string * reg_t).

(** The lines inserted one after the other, whatever the insertions
    return. *)
Fixpoint insert_lines (lines : list string) (pld : ploidy_t) : outcome ploidy_t :=
  match lines with
  | [] => Return pld
  | l :: lines =>
      obind (regidx_insert regidx_parse_tab pld (Some l)) (λ r, insert_lines lines r.2)
  end.

End Lines.

(** A record with a negative ploidy. *)
Definition tableNeg : ploidy_t := built ("chrX 1 10 M -5" +:+ nl) 2.

(** The text after an optional sign. *)
Definition strip_sign (s : string) : string :=
  match s with
  | String "-"%char r => r
  | String "+"%char r => r
  | _ => s
  end.

Definition head_digit (s : string) : bool :=
  match s with
  | String c _ => is_digit c
  | EmptyString => false
  end.

(** The text starts like a decimal integer: an optional sign and a
    digit. *)
Definition numeric_prefix (s : string) : bool := head_digit (strip_sign s).

(** * Properties *)

(** ** Scanning *)

Lemma skip_space_length ss : (String.length (skip_space ss) ≤ String.length ss)%nat.
Proof.
  induction ss as [|c r IH]; simpl; [lia|].
  destruct (negb (is_nul c) && isspace c); simpl; lia.
Qed.

Lemma skip_nonspace_length ss : (String.length (skip_nonspace ss) ≤ String.length ss)%nat.
Proof.
  induction ss as [|c r IH]; simpl; [lia|].
  destruct (negb (is_nul c) && negb (isspace c)); simpl; lia.
Qed.

Lemma skip_to_eol_length ss : (String.length (skip_to_eol ss) ≤ String.length ss)%nat.
Proof.
  induction ss as [|c r IH]; simpl; [lia|].
  destruct (_ && _); simpl; lia.
Qed.

Lemma isspace_not_nul c : isspace c = true → is_nul c = false.
Proof.
  unfold isspace, is_nul. intros H.
  destruct (Nat.eqb_spec (nat_of_ascii c) 0) as [E|]; [|done].
  rewrite E in H. done.
Qed.

Lemma skip_space_idemp ss : skip_space (skip_space ss) = skip_space ss.
Proof.
  induction ss as [|c r IH]; simpl; [done|].
  destruct (negb (is_nul c) && isspace c) eqn:E; [done|].
  simpl. by rewrite E.
Qed.

(** After [skip_nonspace] the pointer is at the NUL or at white space. *)
Lemma skip_nonspace_stop ss :
  at_nul (skip_nonspace ss) = true ∨
  ∃ c r, skip_nonspace ss = String c r ∧ is_nul c = false ∧ isspace c = true.
Proof.
  induction ss as [|c r IH]; simpl; [by left|].
  destruct (is_nul c) eqn:En; simpl; [left; simpl; done|].
  destruct (isspace c) eqn:Es; simpl; [|done].
  right. by exists c, r.
Qed.

(** A pointer that [skip_space] leaves in place is at the NUL or at the
    first character of a token. *)
Lemma skip_space_fix ss :
  skip_space ss = ss →
  at_nul ss = true ∨ ∃ c r, ss = String c r ∧ is_nul c = false ∧ isspace c = false.
Proof.
  destruct ss as [|c r]; simpl; [by left|].
  destruct (is_nul c) eqn:En; simpl; [by left|].
  destruct (isspace c) eqn:Es; simpl.
  - intros H. pose proof (skip_space_length r) as Hl.
    rewrite H in Hl. simpl in Hl. lia.
  - intros _. right. by exists c, r.
Qed.

(** ** Tokens *)

Lemma append_cons a s t : String a s +:+ t = String a (s +:+ t).
Proof. reflexivity. Qed.

Lemma append_snoc cur c s : (cur +:+ String c EmptyString) +:+ s = cur +:+ String c s.
Proof. induction cur as [|a cur IH]; [done|]. rewrite !append_cons. by f_equal. Qed.

Lemma append_empty_r cur : cur +:+ EmptyString = cur.
Proof. induction cur as [|a cur IH]; [done|]. rewrite append_cons. by f_equal. Qed.

Lemma kputsn_0 ss : kputsn ss 0 = EmptyString.
Proof. unfold kputsn. by destruct ss. Qed.

Lemma kputsn_token_cons c r :
  is_nul c = false → isspace c = false →
  kputsn (String c r) (ptr_diff (skip_nonspace (String c r)) (String c r))
  = String c (kputsn r (ptr_diff (skip_nonspace r) r)).
Proof.
  intros En Es. unfold kputsn, ptr_diff. simpl. rewrite En, Es. simpl.
  pose proof (skip_nonspace_length r).
  replace (S (String.length r) - String.length (skip_nonspace r))%nat
    with (S (String.length r - String.length (skip_nonspace r))) by lia.
  done.
Qed.

Lemma kputsn_token_stop ss :
  skip_nonspace ss = ss → kputsn ss (ptr_diff (skip_nonspace ss) ss) = EmptyString.
Proof.
  intros ->. unfold ptr_diff. rewrite Nat.sub_diag. apply kputsn_0.
Qed.

(** Reading on from [s] with [cur] pending: the token ends where
    [skip_nonspace] stops. *)
Lemma tokens_from_skip_nonspace s cur :
  tokens_from cur s
  = flush (cur +:+ kputsn s (ptr_diff (skip_nonspace s) s)) ++ tokens (skip_nonspace s).
Proof.
  unfold tokens. revert cur. induction s as [|c r IH]; intros cur.
  - simpl. by rewrite kputsn_0, append_empty_r, app_nil_r.
  - destruct (is_nul c) eqn:En.
    + rewrite kputsn_token_stop by (simpl; by rewrite En).
      repeat (simpl; rewrite ?En). by rewrite append_empty_r, app_nil_r.
    + destruct (isspace c) eqn:Es.
      * rewrite kputsn_token_stop by (simpl; by rewrite En, Es).
        repeat (simpl; rewrite ?En, ?Es). by rewrite append_empty_r.
      * rewrite kputsn_token_cons by done.
        repeat (simpl; rewrite ?En, ?Es).
        rewrite IH. by rewrite append_snoc.
Qed.

Lemma tokens_skip_space s : tokens (skip_space s) = tokens s.
Proof.
  unfold tokens. induction s as [|c r IH]; simpl; [done|].
  destruct (is_nul c) eqn:En; simpl; [by rewrite En|].
  destruct (isspace c) eqn:Es; simpl; [done|]. by rewrite En, Es.
Qed.

Lemma tokens_at_nul s : at_nul s = true → tokens s = [].
Proof. unfold tokens. destruct s as [|c r]; simpl; [done|]. by intros ->. Qed.

(** At the first character of a token, the token is what [kputsn] copies
    up to the pointer left by [skip_nonspace]. *)
Lemma tokens_head ss :
  skip_space ss = ss → at_nul ss = false →
  tokens ss = kputsn ss (ptr_diff (skip_nonspace ss) ss) :: tokens (skip_nonspace ss).
Proof.
  intros Hfix Hnul.
  destruct (skip_space_fix ss Hfix) as [H|(c & r & -> & En & Es)]; [congruence|].
  unfold tokens at 1. rewrite tokens_from_skip_nonspace.
  rewrite kputsn_token_cons by done. done.
Qed.

Lemma flush_length cur : (length (flush cur) ≤ 1)%nat.
Proof. destruct cur; simpl; lia. Qed.

(** What the loop over the first fields leaves: [None] when the line has
    too few tokens, else the pointer at the rest of the tokens. *)
Lemma skip_fields_spec n ss :
  skip_space ss = ss →
  match skip_fields n ss with
  | None => (length (tokens ss) ≤ n)%nat
  | Some ss' => skip_space ss' = ss' ∧ tokens ss' = drop n (tokens ss)
                ∧ (n ≤ length (tokens ss))%nat
  end.
Proof.
  revert ss. induction n as [|n IH]; intros ss Hfix; simpl.
  - split_and!; [done|done|lia].
  - destruct (at_nul (skip_nonspace ss)) eqn:Hstop.
    + unfold tokens at 1. rewrite tokens_from_skip_nonspace.
      rewrite (tokens_at_nul _ Hstop), app_nil_r.
      etrans; [apply flush_length|lia].
    + assert (at_nul ss = false) as Hnul.
      { destruct ss as [|c r]; [done|]. simpl in *.
        destruct (is_nul c) eqn:En; [|done]. simpl in Hstop. by rewrite En in Hstop. }
      rewrite (tokens_head ss Hfix Hnul).
      specialize (IH (skip_space (skip_nonspace ss)) (skip_space_idemp _)).
      rewrite tokens_skip_space in IH.
      destruct (skip_fields n (skip_space (skip_nonspace ss))) as [ss'|].
      * destruct IH as (H1 & H2 & H3). split_and!; [done|done|simpl; lia].
      * simpl. lia.
Qed.

(** ** The record parser *)

Section ParseProperties.

Variable regidx_parse_tab : string → Z * (string * reg_t).

Lemma ltb_min a b : (if a <? b then a else b) = Z.min b a.
Proof. destruct (Z.ltb_spec a b); lia. Qed.

Lemma ltb_max a b : (if b <? a then a else b) = Z.max b a.
Proof. destruct (Z.ltb_spec b a); lia. Qed.

(** Where the fourth token starts when the line has one. *)
Lemma fourth_token line ss :
  skip_fields 3 (skip_space line) = Some ss → at_nul ss = false →
  tokens line !! 3%nat = Some (kputsn ss (ptr_diff (skip_nonspace ss) ss)).
Proof.
  intros Hs Hnul.
  pose proof (skip_fields_spec 3 (skip_space line) (skip_space_idemp _)) as H.
  rewrite Hs, tokens_skip_space in H. destruct H as (Hfix & Ht & _).
  rewrite (tokens_head ss Hfix Hnul) in Ht.
  rewrite <- (Nat.add_0_r 3), <- lookup_drop, <- Ht. done.
Qed.

(** A parse that returns 0 went through every step: the fourth token was
    looked up or registered as [ploidy_add_sex] does, and the bounds of
    the table were moved to the ploidy read. *)
Lemma ploidy_parse_ok line payload usr po :
  ploidy_parse regidx_parse_tab line payload usr = Return po → po_ret po = 0 →
  ∃ tok, tokens line !! 3%nat = Some tok ∧
    let r := ploidy_add_sex (set_tmp_str usr tok) tok in
    let pl := ploidy (po_payload po) in
    sex (po_payload po) = r.1 ∧
    po_usr po = set_min_max r.2 (Z.min (min usr) pl) (Z.max (max usr) pl) ∧
    regidx_parse_tab line = (0, (po_chr po, po_reg po)).
Proof.
  unfold ploidy_parse.
  destruct (regidx_parse_tab line) as [ret [chr reg]].
  destruct (Z.eqb_spec ret 0) as [->|Hne]; cbn [negb].
  2:{ intros [= <-]. simpl. done. }
  destruct (skip_fields 3 (skip_space line)) as [ss|] eqn:Hs.
  2:{ intros [= <-]. simpl. done. }
  destruct (at_nul ss) eqn:Hnul.
  { intros [= <-]. simpl. done. }
  destruct (at_nul (skip_nonspace ss) || ptr_eqb (skip_nonspace ss) ss); [done|].
  pose proof (fourth_token line ss Hs Hnul) as Htok.
  set (tok := kputsn ss (ptr_diff (skip_nonspace ss) ss)) in *.
  change (match khash_str2int_get (sex2id (set_tmp_str usr tok)) (tmp_str (set_tmp_str usr tok)) with
          | Some id => (id, set_tmp_str usr tok)
          | None => register_sex (set_tmp_str usr tok) (tmp_str (set_tmp_str usr tok))
          end) with (ploidy_add_sex (set_tmp_str usr tok) tok).
  destruct (ploidy_add_sex (set_tmp_str usr tok) tok) as [id u1] eqn:Hadd.
  destruct (at_nul (skip_space (skip_nonspace ss))); [done|].
  destruct (strtol (skip_nonspace ss)) as [v se].
  destruct (ptr_eqb (skip_nonspace ss) se); [done|].
  intros [= <-] _. simpl. exists tok. split; [done|].
  rewrite ltb_min, ltb_max, Hadd. cbn [fst snd].
  assert (min u1 = min usr ∧ max u1 = max usr) as [-> ->]; [|done].
  revert Hadd. unfold ploidy_add_sex, register_sex.
  destruct (khash_str2int_get _ _); [by intros [= <- <-]|].
  destruct (hts_expand0 _ _ _), (khash_str2int_inc _ _). by intros [= <- <-].
Qed.

(** With the coordinates accepted and fewer than four tokens on the
    line, the parser returns -2 and touches neither the payload nor the
    table. *)
Lemma ploidy_parse_wrong_fields line payload usr :
  (regidx_parse_tab line).1 = 0 → (length (tokens line) < 4)%nat →
  ploidy_parse regidx_parse_tab line payload usr =
  Return {| po_ret := -2; po_chr := (regidx_parse_tab line).2.1;
            po_reg := (regidx_parse_tab line).2.2;
            po_payload := payload; po_usr := usr |}.
Proof.
  unfold ploidy_parse.
  destruct (regidx_parse_tab line) as [ret [chr reg]]. cbn [fst snd].
  intros -> Hlen. cbn [negb Z.eqb].
  pose proof (skip_fields_spec 3 (skip_space line) (skip_space_idemp _)) as H.
  rewrite tokens_skip_space in H.
  destruct (skip_fields 3 (skip_space line)) as [ss|]; [|done].
  destruct H as (Hfix & Ht & Hl).
  destruct (at_nul ss) eqn:Hnul; [done|].
  exfalso. rewrite (tokens_head ss Hfix Hnul) in Ht.
  assert (length (drop 3 (tokens line)) = 0)%nat as Hd by (rewrite length_drop; lia).
  rewrite <- Ht in Hd. done.
Qed.

End ParseProperties.

(** ** The sex registry *)

Lemma ploidy_add_sex_fields pld name :
  let r := ploidy_add_sex pld name in
  dflt r.2 = dflt pld ∧ min r.2 = min pld ∧ max r.2 = max pld ∧ idx r.2 = idx pld.
Proof.
  unfold ploidy_add_sex, register_sex.
  destruct (khash_str2int_get _ _); [done|].
  by destruct (hts_expand0 _ _ _), (khash_str2int_inc _ _).
Qed.

(** After [ploidy_add_sex] the name is in the dictionary with the id
    returned, and no other key has changed. *)
Lemma ploidy_add_sex_lookup pld name :
  let r := ploidy_add_sex pld name in
  sex2id r.2 !! name = Some r.1 ∧
  ∀ other, other ≠ name → sex2id r.2 !! other = sex2id pld !! other.
Proof.
  unfold ploidy_add_sex, register_sex, khash_str2int_get, khash_str2int_inc.
  destruct (sex2id pld !! name) eqn:E; [done|].
  destruct (hts_expand0 _ _ _). simpl. split.
  - by rewrite lookup_insert_eq.
  - intros other Hne. by rewrite lookup_insert_ne.
Qed.

Lemma ploidy_add_sex_dom pld name :
  dom (sex2id (ploidy_add_sex pld name).2) = {[ name ]} ∪ dom (sex2id pld).
Proof.
  destruct (ploidy_add_sex_lookup pld name) as [Hn Ho].
  apply set_eq. intros k. rewrite elem_of_union, elem_of_singleton, !elem_of_dom.
  destruct (decide (k = name)) as [->|Hne].
  - rewrite Hn. split; [by left|by eauto].
  - rewrite (Ho k Hne). split; [by right|by intros [|]].
Qed.

(** A second registration of the same name finds it. *)
Lemma ploidy_add_sex_again pld name :
  ploidy_add_sex (ploidy_add_sex pld name).2 name = ploidy_add_sex pld name.
Proof.
  destruct (ploidy_add_sex_lookup pld name) as [Hn _].
  destruct (ploidy_add_sex pld name) as [id pld'] eqn:E. simpl in *.
  unfold ploidy_add_sex at 1, khash_str2int_get. by rewrite Hn.
Qed.

(** ** Reachable tables *)

Section ReachableProperties.

Variable regidx_parse_tab : string → Z * (string * reg_t).

(** A parse that returns another value than 0 has changed nothing. *)
Lemma ploidy_parse_fail line payload usr po :
  ploidy_parse regidx_parse_tab line payload usr = Return po → po_ret po ≠ 0 →
  po_usr po = usr ∧ po_payload po = payload.
Proof.
  unfold ploidy_parse.
  destruct (regidx_parse_tab line) as [ret [chr reg]].
  destruct (negb (ret =? 0)); [by intros [= <-]|].
  destruct (skip_fields 3 (skip_space line)) as [ss|]; [|by intros [= <-]].
  destruct (at_nul ss); [by intros [= <-]|].
  destruct (_ || _); [done|].
  destruct (match khash_str2int_get _ _ with Some _ => _ | None => _ end).
  destruct (at_nul _); [done|].
  destruct (strtol _). destruct (ptr_eqb _ _); [done|].
  by intros [= <-].
Qed.

(** What an insertion does to the table: nothing, or, for a record
    parsed, the registration of its sex token, the new bounds and one
    more region in the index. *)
Lemma regidx_insert_inv pld line r pld' :
  regidx_insert regidx_parse_tab pld line = Return (r, pld') →
  (parse_ok regidx_parse_tab line pld = false ∧ pld' = pld) ∨
  (∃ l po tok,
      line = Some l ∧ parse_ok regidx_parse_tab line pld = true ∧
      ploidy_parse regidx_parse_tab l {| sex := 0; ploidy := 0 |} pld = Return po ∧
      po_ret po = 0 ∧ tokens l !! 3%nat = Some tok ∧
      po_usr po = set_min_max (ploidy_add_sex (set_tmp_str pld tok) tok).2
                    (Z.min (min pld) (ploidy (po_payload po)))
                    (Z.max (max pld) (ploidy (po_payload po))) ∧
      sex (po_payload po) = (ploidy_add_sex (set_tmp_str pld tok) tok).1 ∧
      r = 0 ∧
      pld' = set_idx (po_usr po)
               {| seq2regs := <[po_chr po :=
                    default [] (seq2regs (idx (po_usr po)) !! po_chr po)
                    ++ [(po_reg po, po_payload po)]]> (seq2regs (idx (po_usr po))) |}).
Proof.
  destruct line as [l|]; simpl; [|intros [= <- <-]; by left].
  destruct (ploidy_parse regidx_parse_tab l _ pld) as [po|msg] eqn:Hp; simpl; [|done].
  destruct (Z.eqb_spec (po_ret po) 0) as [H0|Hne].
  - intros [= <- <-]. right.
    destruct (ploidy_parse_ok _ _ _ _ _ Hp H0) as (tok & Htok & Hsex & Husr & _).
    exists l, po, tok. split_and!; done.
  - destruct (ploidy_parse_fail _ _ _ _ Hp Hne) as [-> _].
    destruct (po_ret po =? -1); intros [= <- <-]; by left.
Qed.

(** The invariant of reachable tables: the default is the one given at
    construction, it lies between the bounds, only names of the history
    are in the dictionary, and without a record the bounds are the
    default. *)
Lemma reachable_inv d h pld :
  reachable regidx_parse_tab d h pld →
  dflt pld = d ∧ min pld ≤ d ≤ max pld ∧
  dom (sex2id pld) ⊆ registered h ∧
  (records h = 0%nat → min pld = d ∧ max pld = d).
Proof.
  induction 1 as [|h pld line r pld' _ IH Hins|h pld name _ IH].
  - simpl. split_and!; [done|lia|lia|set_solver|done].
  - destruct IH as (Hd & Hb & Hdom & Hz).
    destruct (regidx_insert_inv _ _ _ _ Hins)
      as [[Hok ->]|(l & po & tok & -> & Hok & Hp & H0 & Htok & Husr & _ & _ & ->)].
    + unfold log_line. destruct line; rewrite ?Hok; done.
    + unfold log_line. rewrite Hok, Husr. simpl. rewrite Htok.
      destruct (ploidy_add_sex_fields (set_tmp_str pld tok) tok) as (Hd' & _).
      pose proof (ploidy_add_sex_dom (set_tmp_str pld tok) tok) as Hdom'.
      simpl in *. split_and!; [congruence|lia|lia| |done].
      rewrite Hdom'. by apply union_mono_l.
  - destruct IH as (Hd & Hb & Hdom & Hz).
    destruct (ploidy_add_sex_fields pld name) as (Hd' & Hmin & Hmax & _).
    pose proof (ploidy_add_sex_dom pld name) as Hdom'.
    simpl in *. rewrite Hd', Hmin, Hmax, Hdom'.
    split_and!; [done|lia|lia|by apply union_mono_l|done].
Qed.

End ReachableProperties.

(** ** The index and its iterator *)

Lemma reg_overlaps_covers pos r :
  reg_overlaps (to_u32 pos) (to_u32 pos) r = true ↔ covers pos r.
Proof. unfold reg_overlaps, covers. rewrite andb_true_iff, !Z.leb_le. done. Qed.

Lemma first_overlap_None from to l :
  first_overlap from to l = None ↔ ∀ rp, rp ∈ l → reg_overlaps from to rp.1 = false.
Proof.
  induction l as [|rp l IH]; simpl.
  - split; [|done]. intros _ rp H. by apply elem_of_nil in H.
  - destruct (reg_overlaps from to rp.1) eqn:E.
    + split; [done|]. intros H. specialize (H rp (list_elem_of_here _ _)). congruence.
    + rewrite IH. split.
      * intros H rp' [->|Hin]%elem_of_cons; auto.
      * intros H rp' Hin. apply H. by apply list_elem_of_further.
Qed.

(** The regions found are a tail of the stored ones and start with a
    region that overlaps. *)
Lemma first_overlap_Some from to l l' :
  first_overlap from to l = Some l' →
  ∃ pre rp rest, l = pre ++ l' ∧ l' = rp :: rest ∧ reg_overlaps from to rp.1 = true
    ∧ ∀ rp', rp' ∈ pre → reg_overlaps from to rp'.1 = false.
Proof.
  induction l as [|rp l IH]; simpl; [done|].
  destruct (reg_overlaps from to rp.1) eqn:E.
  - intros [= <-]. exists [], rp, l. split_and!; [done|done|done|].
    intros rp' H. by apply elem_of_nil in H.
  - intros (pre & rp0 & rest & -> & -> & Ho & Hpre)%IH.
    exists (rp :: pre), rp0, rest. split_and!; [done|done|done|].
    intros rp' [->|Hin]%elem_of_cons; auto.
Qed.

Lemma overlap_run_sub from to l sp :
  sp ∈ overlap_run from to l → ∃ r, (r, sp) ∈ l ∧ reg_overlaps from to r = true.
Proof.
  induction l as [|[r0 sp0] l IH]; simpl; [by intros H%elem_of_nil|].
  destruct (reg_overlaps from to r0) eqn:E; [|by intros H%elem_of_nil].
  intros [->|Hin]%elem_of_cons.
  - exists r0. split; [apply list_elem_of_here|done].
  - destruct (IH Hin) as (r & Hr & Ho). exists r. split; [by apply list_elem_of_further|done].
Qed.

(** Every record the query goes through is a stored record of the
    sequence whose region covers the position. *)
Lemma visited_stored pld seq pos sp :
  sp ∈ visited pld seq pos → ∃ r, (r, sp) ∈ stored pld seq ∧ covers pos r.
Proof.
  unfold visited.
  destruct (first_overlap _ _ _) as [l'|] eqn:E; [|by intros H%elem_of_nil].
  destruct (first_overlap_Some _ _ _ _ E) as (pre & rp & rest & Hl & _).
  intros (r & Hin & Ho)%overlap_run_sub. exists r. split.
  - rewrite Hl. apply elem_of_app. by right.
  - by apply reg_overlaps_covers.
Qed.

(** The query goes through a record exactly when a stored region of the
    sequence covers the position. *)
Lemma visited_nonempty pld seq pos :
  visited pld seq pos ≠ [] ↔ ∃ rp, rp ∈ stored pld seq ∧ covers pos rp.1.
Proof.
  unfold visited. destruct (first_overlap _ _ _) as [l'|] eqn:E.
  - destruct (first_overlap_Some _ _ _ _ E) as (pre & rp & rest & Hl & -> & Ho & _).
    simpl. rewrite Ho. split; [intros _|done].
    exists rp. split; [|by apply reg_overlaps_covers].
    rewrite Hl. apply elem_of_app. right. apply list_elem_of_here.
  - split; [done|]. intros (rp & Hin & Hc).
    rewrite first_overlap_None in E. apply reg_overlaps_covers in Hc.
    rewrite (E rp Hin) in Hc. done.
Qed.

Lemma regidx_overlap_ret pld seq pos :
  (regidx_overlap (idx pld) seq (to_u32 pos) (to_u32 pos)).1
  = if decide (visited pld seq pos = []) then 0 else 1.
Proof.
  pose proof (visited_nonempty pld seq pos) as Hv. revert Hv.
  unfold regidx_overlap, visited, stored.
  destruct (seq2regs (idx pld) !! seq) as [l|]; simpl; [|done].
  destruct (first_overlap _ _ l) as [l'|] eqn:E; simpl; [|done].
  intros Hv. destruct (first_overlap_Some _ _ _ _ E) as (pre & rp & rest & Hl & -> & Ho & _).
  simpl. by rewrite Ho.
Qed.

(** ** The query loop *)

Lemma itr_next_at k n regs pay :
  itr_next {| itr_i := Z.of_nat k; itr_n := n; itr_reg := regs; itr_payload := pay |}
  = {| itr_i := Z.of_nat (S k); itr_n := n; itr_reg := regs; itr_payload := pay |}.
Proof. unfold itr_next. simpl. f_equal. lia. Qed.

(** With enough turns, the loop is the reduction over the leading
    overlapping regions at the iterator. *)
Lemma query_loop_reduce fuel d pos l k buf mn mx :
  (length l - k ≤ fuel)%nat →
  query_loop fuel d pos
    {| itr_i := Z.of_nat k; itr_n := Z.of_nat (length l);
       itr_reg := l.*1; itr_payload := l.*2 |} buf mn mx
  = reduce d (overlap_run pos pos (drop k l)) buf mn mx.
Proof.
  revert k buf mn mx. induction fuel as [|fuel IH]; intros k buf mn mx Hf.
  - rewrite drop_ge by lia. done.
  - cbn [query_loop]. unfold REGITR_OVERLAP, REGITR_PAYLOAD. cbn [itr_i itr_n itr_reg itr_payload].
    rewrite Nat2Z.id.
    destruct (l !! k) as [[r sp]|] eqn:Hk.
    + apply lookup_lt_Some in Hk as Hlt.
      rewrite (drop_S _ _ _ Hk). cbn [overlap_run fst snd reduce].
      rewrite !list_lookup_fmap, Hk. cbn [fmap option_fmap option_map fst snd].
      replace (Z.of_nat k <? Z.of_nat (length l)) with true by (symmetry; apply Z.ltb_lt; lia).
      cbn [andb]. fold (reg_overlaps pos pos r).
      destruct (reg_overlaps pos pos r); [|done].
      cbn [mbind option_bind reduce]. rewrite itr_next_at.
      destruct (negb (ploidy sp =? d)).
      * destruct (store_opt buf (sex sp) (ploidy sp)) as [buf'|]; [|done].
        cbn [mbind option_bind]. apply IH. lia.
      * apply IH. lia.
    + apply lookup_ge_None in Hk. rewrite drop_ge by lia.
      replace (Z.of_nat k <? Z.of_nat (length l)) with false by (symmetry; apply Z.ltb_ge; lia).
      done.
Qed.

(** The turns given to the loop are enough: more turns change nothing. *)
Lemma query_loop_fuel fuel d pos l buf mn mx :
  (length l ≤ fuel)%nat →
  let itr := {| itr_i := 0; itr_n := Z.of_nat (length l);
                itr_reg := l.*1; itr_payload := l.*2 |} in
  query_loop fuel d pos itr buf mn mx
  = query_loop (Z.to_nat (itr_n itr - itr_i itr)) d pos itr buf mn mx.
Proof.
  intros Hf. simpl. change 0 with (Z.of_nat 0).
  rewrite !query_loop_reduce; [done|lia|lia].
Qed.

(** ** The reduction *)

Lemma store_Some buf i v :
  0 ≤ i < Z.of_nat (length buf) → store buf i v = Some (<[Z.to_nat i := v]> buf).
Proof.
  intros H. unfold store.
  destruct (Z.leb_spec 0 i); [|lia]. destruct (Z.ltb_spec i (Z.of_nat (length buf))); [|lia].
  done.
Qed.

(** Records at the default change nothing. *)
Lemma reduce_all_default d recs buf mn mx :
  (∀ sp, sp ∈ recs → ploidy sp = d) → reduce d recs buf mn mx = Some (buf, mn, mx).
Proof.
  induction recs as [|sp recs IH]; intros H; simpl; [done|].
  rewrite (H sp (list_elem_of_here _ _)), Z.eqb_refl. simpl.
  apply IH. intros sp' Hin. apply H. by apply list_elem_of_further.
Qed.

(** Without a vector the reduction always has a result. *)
Lemma reduce_no_vector d recs mn mx :
  ∃ mn' mx', reduce d recs None mn mx = Some (None, mn', mx').
Proof.
  revert mn mx. induction recs as [|sp recs IH]; intros mn mx; simpl; [by eauto|].
  destruct (negb (ploidy sp =? d)); simpl; apply IH.
Qed.

(** The running bounds are ordered as soon as one record has moved
    them; before that the maximum is still -1. *)
Lemma reduce_bounds d recs buf mn mx buf' mn' mx' :
  reduce d recs buf mn mx = Some (buf', mn', mx') →
  mn ≤ mx ∨ mx = -1 → mn' ≤ mx' ∨ mx' = -1.
Proof.
  revert buf mn mx. induction recs as [|sp recs IH]; intros buf mn mx; simpl.
  - by intros [= <- <- <-].
  - destruct (negb (ploidy sp =? d)); simpl; [|by apply IH].
    destruct (store_opt buf (sex sp) (ploidy sp)) as [buf1|]; simpl; [|done].
    intros H Hb. apply (IH _ _ _ H). rewrite ltb_min, ltb_max. lia.
Qed.

(** With every record's sex inside the vector, the reduction has a
    result, and each slot holds the ploidy of the last non-default
    record of its sex, or what it held before. *)
Lemma reduce_slots d recs (b : list Z) mn mx :
  (∀ sp, sp ∈ recs → 0 ≤ sex sp < Z.of_nat (length b)) →
  ∃ b' mn' mx',
    reduce d recs (Some b) mn mx = Some (Some b', mn', mx') ∧
    length b' = length b ∧
    ∀ s, 0 ≤ s →
      b' !! Z.to_nat s = match last (non_default d s recs) with
                         | Some sp => Some (ploidy sp)
                         | None => b !! Z.to_nat s
                         end.
Proof.
  revert b mn mx. induction recs as [|sp recs IH]; intros b mn mx Hin.
  - exists b, mn, mx. done.
  - assert (∀ b1 : list Z, length b1 = length b →
              ∀ sp', sp' ∈ recs → 0 ≤ sex sp' < Z.of_nat (length b1)) as Hrec.
    { intros b1 -> sp' H. apply Hin. by apply list_elem_of_further. }
    pose proof (Hin sp (list_elem_of_here _ _)) as Hsp.
    unfold non_default. cbn [reduce].
    destruct (Z.eqb_spec (ploidy sp) d) as [Hd|Hd]; cbn [negb].
    + destruct (IH b mn mx (Hrec b eq_refl)) as (b' & mn' & mx' & -> & Hlen & Hs).
      exists b', mn', mx'. split_and!; [done|done|].
      intros s H0. rewrite filter_cons_False by (intros [_ ?]; done). by apply Hs.
    + unfold store_opt. rewrite (store_Some _ _ _ Hsp). cbn [fmap option_fmap option_map mbind option_bind].
      set (b1 := <[Z.to_nat (sex sp) := ploidy sp]> b).
      assert (length b1 = length b) as Hl1 by apply length_insert.
      destruct (IH b1 (if ploidy sp <? mn then ploidy sp else mn)
                  (if mx <? ploidy sp then ploidy sp else mx) (Hrec b1 Hl1))
        as (b' & mn' & mx' & -> & Hlen & Hs).
      exists b', mn', mx'. split_and!; [done|congruence|].
      intros s H0. rewrite (Hs s H0). fold (non_default d s recs).
      destruct (decide (sex sp = s)) as [<-|Hne].
      * rewrite filter_cons_True by done. fold (non_default d (sex sp) recs).
        rewrite last_cons.
        destruct (last (non_default d (sex sp) recs)); [done|].
        unfold b1. apply list_lookup_insert_eq. lia.
      * rewrite filter_cons_False by (intros [? _]; done).
        fold (non_default d s recs).
        destruct (last (non_default d s recs)); [done|].
        unfold b1. apply list_lookup_insert_ne. lia.
Qed.

(** ** Filling the vector *)

Lemma fill_dflt_spec n k d (b : list Z) :
  (k + n ≤ length b)%nat →
  fill_dflt n (Z.of_nat k) d b = Some (take k b ++ replicate n d ++ drop (k + n) b).
Proof.
  revert k b. induction n as [|n IH]; intros k b Hlen.
  - simpl. by rewrite Nat.add_0_r, take_drop.
  - cbn [fill_dflt]. rewrite store_Some by lia. cbn [mbind option_bind].
    replace (Z.of_nat k + 1) with (Z.of_nat (S k)) by lia.
    rewrite IH by (rewrite length_insert; lia).
    f_equal. rewrite Nat2Z.id.
    rewrite take_S_r with (x := d) by (apply list_lookup_insert_eq; lia).
    rewrite take_insert_ge by lia.
    rewrite drop_insert_lt by lia.
    rewrite <- app_assoc. simpl. by rewrite Nat.add_succ_r.
Qed.

Lemma fill_dflt_opt_spec pld buf :
  fits pld buf → fill_dflt_opt pld buf = Some (filled pld <$> buf).
Proof.
  destruct buf as [b|]; simpl; [|done]. intros Hfit.
  change 0 with (Z.of_nat 0). rewrite fill_dflt_spec by lia. done.
Qed.

Lemma filled_length pld b :
  nsex pld ≤ Z.of_nat (length b) → length (filled pld b) = length b.
Proof.
  intros H. unfold filled. rewrite length_app, length_replicate, length_drop. lia.
Qed.

Lemma filled_lookup pld b (s : Z) :
  0 ≤ s < nsex pld → filled pld b !! Z.to_nat s = Some (dflt pld).
Proof.
  intros H. unfold filled. rewrite lookup_app_l by (rewrite length_replicate; lia).
  apply lookup_replicate_2. lia.
Qed.

(** ** The point query *)

(** The query in terms of the records it goes through. *)
Lemma ploidy_query_eq pld seq pos out :
  ploidy_query pld seq pos out =
  if is_null (q_sex2ploidy out) && is_null (q_min out) && is_null (q_max out)
  then Some (if decide (visited pld seq pos = []) then 0 else 1, out)
  else
    buf ← fill_dflt_opt pld (q_sex2ploidy out);
    if decide (visited pld seq pos = []) then
      Some (0, {| q_sex2ploidy := buf;
                  q_min := assign (q_min out) (dflt pld);
                  q_max := assign (q_max out) (dflt pld) |})
    else
      '(buf, mn, mx) ← reduce (dflt pld) (visited pld seq pos) buf INT_MAX (-1);
      Some (1, {| q_sex2ploidy := buf;
                  q_min := assign (q_min out) (collapse (dflt pld) mn mx).1;
                  q_max := assign (q_max out) (collapse (dflt pld) mn mx).2 |}).
Proof.
  pose proof (regidx_overlap_ret pld seq pos) as Hret.
  unfold ploidy_query.
  destruct (regidx_overlap (idx pld) seq (to_u32 pos) (to_u32 pos)) as [ret itr] eqn:Ho.
  simpl in Hret. subst ret.
  destruct (_ && _ && _); [done|].
  destruct (decide (visited pld seq pos = [])) as [Hv|Hv]; cbn [Z.eqb].
  { by destruct (fill_dflt_opt pld (q_sex2ploidy out)). }
  destruct (fill_dflt_opt pld (q_sex2ploidy out)) as [buf|]; [|done].
  cbn [mbind option_bind].
  revert Ho Hv. unfold regidx_overlap, visited, stored.
  destruct (seq2regs (idx pld) !! seq) as [l|]; simpl; [|done].
  destruct (first_overlap _ _ l) as [l'|]; [|done].
  intros [= <-] _. cbn [itr_i itr_n].
  rewrite Z.sub_0_r, Nat2Z.id. change 0 with (Z.of_nat 0).
  rewrite query_loop_reduce by lia. rewrite drop_0.
  destruct (reduce _ _ _ _ _) as [[[buf' mn] mx]|]; [|done].
  cbn [mbind option_bind]. unfold collapse. by destruct (mx =? -1).
Qed.

Lemma visited_empty pld seq pos :
  (∀ rp, rp ∈ stored pld seq → ¬ covers pos rp.1) → visited pld seq pos = [].
Proof.
  intros H. destruct (decide (visited pld seq pos = [])) as [|Hne]; [done|].
  apply visited_nonempty in Hne as (rp & Hin & Hc). by destruct (H rp Hin).
Qed.

Lemma visited_all_default pld seq pos :
  (∀ rp, rp ∈ stored pld seq → covers pos rp.1 → ploidy rp.2 = dflt pld) →
  ∀ sp, sp ∈ visited pld seq pos → ploidy sp = dflt pld.
Proof.
  intros H sp (r & Hin & Hc)%visited_stored. by apply (H (r, sp)).
Qed.

(** Without an overlapping region every output asked for gets the
    default. *)
Lemma ploidy_query_none pld seq pos out :
  visited pld seq pos = [] → fits pld (q_sex2ploidy out) →
  ploidy_query pld seq pos out =
  Some (0, {| q_sex2ploidy := filled pld <$> q_sex2ploidy out;
              q_min := assign (q_min out) (dflt pld);
              q_max := assign (q_max out) (dflt pld) |}).
Proof.
  intros Hv Hfit. rewrite ploidy_query_eq, Hv.
  rewrite (fill_dflt_opt_spec _ _ Hfit). cbn [mbind option_bind].
  destruct out as [[b|] [m|] [x|]]; done.
Qed.

(** With an overlapping region and an output asked for. *)
Lemma ploidy_query_some pld seq pos out :
  visited pld seq pos ≠ [] → fits pld (q_sex2ploidy out) →
  is_null (q_sex2ploidy out) && is_null (q_min out) && is_null (q_max out) = false →
  ploidy_query pld seq pos out =
  '(buf, mn, mx) ← reduce (dflt pld) (visited pld seq pos)
                     (filled pld <$> q_sex2ploidy out) INT_MAX (-1);
  Some (1, {| q_sex2ploidy := buf;
              q_min := assign (q_min out) (collapse (dflt pld) mn mx).1;
              q_max := assign (q_max out) (collapse (dflt pld) mn mx).2 |}).
Proof.
  intros Hv Hfit Hreq. rewrite ploidy_query_eq, Hreq.
  rewrite (fill_dflt_opt_spec _ _ Hfit). cbn [mbind option_bind].
  by destruct (decide _).
Qed.

Lemma collapse_le d mn mx :
  mn ≤ mx ∨ mx = -1 → (collapse d mn mx).1 ≤ (collapse d mn mx).2.
Proof. unfold collapse. destruct (Z.eqb_spec mx (-1)); simpl; lia. Qed.

(** ** Dense ids *)

Lemma ploidy_add_sex_registry pld name :
  registry_ok pld →
  let r := ploidy_add_sex pld name in
  registry_ok r.2 ∧ 0 ≤ r.1 < nsex r.2 ∧ nsex pld ≤ nsex r.2.
Proof.
  intros [Hn Hv]. unfold ploidy_add_sex, register_sex, khash_str2int_get, khash_str2int_inc.
  destruct (sex2id pld !! name) as [v|] eqn:E.
  - simpl. pose proof (Hv name v E). split_and!; [done|lia|lia|lia].
  - destruct (hts_expand0 _ _ _). simpl. unfold registry_ok. simpl.
    rewrite map_size_insert_None by done. split_and!; try lia.
    intros k v. rewrite lookup_insert. case_decide.
    + intros [= <-]. lia.
    + intros H'. specialize (Hv k v H'). lia.
Qed.

Section DenseIds.

Variable regidx_parse_tab : string → Z * (string * reg_t).

Lemma regidx_insert_ok pld line r pld' :
  regidx_insert regidx_parse_tab pld line = Return (r, pld') →
  registry_ok pld → records_ok pld → registry_ok pld' ∧ records_ok pld'.
Proof.
  intros Hins Hreg Hrec.
  destruct (regidx_insert_inv _ _ _ _ _ Hins)
    as [[_ ->]|(l & po & tok & -> & _ & _ & _ & _ & Husr & Hsex & _ & ->)]; [done|].
  destruct (ploidy_add_sex_registry (set_tmp_str pld tok) tok Hreg) as (Hreg' & Hid & Hmono).
  destruct (ploidy_add_sex_fields (set_tmp_str pld tok) tok) as (_ & _ & _ & Hidx).
  rewrite Husr. simpl in *.
  set (pld1 := (ploidy_add_sex (set_tmp_str pld tok) tok).2) in *.
  split; [done|].
  intros seq rp. unfold stored. simpl. rewrite Hidx. simpl.
  destruct (decide (po_chr po = seq)) as [<-|Hne].
  - rewrite lookup_insert_eq. simpl. intros [Hin| ->%list_elem_of_singleton]%elem_of_app.
    + specialize (Hrec (po_chr po) rp Hin). simpl in Hrec. lia.
    + simpl. lia.
  - rewrite lookup_insert_ne by done. intros Hin.
    specialize (Hrec seq rp Hin). simpl in Hrec. lia.
Qed.

(** In a reachable table the ids are dense and every stored record
    carries one of them. *)
Lemma reachable_ids d h pld :
  reachable regidx_parse_tab d h pld → registry_ok pld ∧ records_ok pld.
Proof.
  induction 1 as [|h pld line r pld' _ IH Hins|h pld name _ IH].
  - split.
    + split; [done|]. intros k v. simpl. by rewrite lookup_empty.
    + intros seq rp. unfold stored. simpl. rewrite lookup_empty. simpl.
      by intros ?%elem_of_nil.
  - destruct IH. by eapply regidx_insert_ok.
  - destruct IH as [Hreg Hrec].
    destruct (ploidy_add_sex_registry pld name Hreg) as (Hreg' & _ & Hmono).
    destruct (ploidy_add_sex_fields pld name) as (_ & _ & _ & Hidx).
    split; [done|]. intros seq rp. unfold stored. rewrite Hidx.
    intros Hin. specialize (Hrec seq rp Hin). lia.
Qed.

(** The records a query goes through on a reachable table fit a vector
    of [nsex] slots. *)
Lemma reachable_visited d h pld seq pos sp :
  reachable regidx_parse_tab d h pld → sp ∈ visited pld seq pos →
  0 ≤ sex sp < nsex pld.
Proof.
  intros [_ Hrec]%reachable_ids (r & Hin & _)%visited_stored.
  apply (Hrec seq (r, sp) Hin).
Qed.

End DenseIds.

(** ** Construction *)

Lemma isspace_eol c :
  isspace c = false → (nat_of_ascii c =? 13)%nat = false ∧ (nat_of_ascii c =? 10)%nat = false.
Proof.
  unfold isspace. intros H.
  split; apply Nat.eqb_neq; intros E; rewrite E in H; done.
Qed.

(** Every turn of the loop over the preset string moves forward. *)
Lemma init_string_progress ss :
  at_nul ss = false →
  (String.length (skip_space (skip_to_eol (skip_space ss))) < String.length ss)%nat.
Proof.
  destruct ss as [|c r]; [done|]. cbn [at_nul]. intros En.
  assert (∀ s, String.length (skip_space (skip_to_eol s)) ≤ String.length s)%nat as Hle.
  { intros s. etrans; [apply skip_space_length|apply skip_to_eol_length]. }
  cbn [skip_space]. rewrite En. cbn [negb andb].
  destruct (isspace c) eqn:Es.
  - specialize (Hle (skip_space r)). pose proof (skip_space_length r). simpl. lia.
  - cbn [skip_to_eol]. rewrite En. destruct (isspace_eol c Es) as [-> ->]. cbn [negb andb].
    pose proof (skip_to_eol_length r). pose proof (skip_space_length (skip_to_eol r)).
    simpl. lia.
Qed.

Section Construction.

Variable regidx_parse_tab : string → Z * (string * reg_t).

(** The turns given to the loop over the preset string are enough: with
    at least [String.length ss] turns the result does not depend on
    their number. *)
Lemma init_string_loop_fuel f1 f2 ss pld :
  (String.length ss ≤ f1)%nat → (String.length ss ≤ f2)%nat →
  init_string_loop regidx_parse_tab f1 ss pld = init_string_loop regidx_parse_tab f2 ss pld.
Proof.
  revert f2 ss pld. induction f1 as [|f1 IH]; intros f2 ss pld H1 H2.
  - destruct ss; [|simpl in H1; lia]. by destruct f2.
  - destruct f2 as [|f2].
    { destruct ss; [done|simpl in H2; lia]. }
    cbn [init_string_loop]. destruct (at_nul ss) eqn:En; [done|].
    pose proof (init_string_progress ss En).
    destruct (regidx_insert _ _ _) as [[r pld']|]; [|done].
    cbn [obind snd]. apply IH; lia.
Qed.

(** The parser calls [error] only on a line whose coordinates were
    accepted and that has a sex token. *)
Lemma ploidy_parse_exit line payload usr msg :
  ploidy_parse regidx_parse_tab line payload usr = Exit msg →
  msg = could_not_parse line ∧ (regidx_parse_tab line).1 = 0
  ∧ (4 ≤ length (tokens line))%nat.
Proof.
  unfold ploidy_parse.
  destruct (regidx_parse_tab line) as [ret [chr reg]].
  destruct (Z.eqb_spec ret 0) as [->|Hne]; cbn [negb]; [|done].
  destruct (skip_fields 3 (skip_space line)) as [ss|] eqn:Hs; [|done].
  destruct (at_nul ss) eqn:Hnul; [done|].
  pose proof (fourth_token line ss Hs Hnul) as Htok%lookup_lt_Some.
  assert (∀ m, Exit (A:=parse_out) (could_not_parse line) = Exit m →
               m = could_not_parse line ∧ (0, (chr, reg)).1 = 0
               ∧ (4 ≤ length (tokens line))%nat) as Hexit.
  { intros m [= <-]. split_and!; [done|done|lia]. }
  destruct (_ || _); [by apply Hexit|].
  destruct (match khash_str2int_get _ _ with Some _ => _ | None => _ end).
  destruct (at_nul (skip_space _)); [by apply Hexit|].
  destruct (strtol _). destruct (ptr_eqb _ _); [by apply Hexit|done].
Qed.

Lemma regidx_insert_exit pld line msg :
  regidx_insert regidx_parse_tab pld line = Exit msg →
  ∃ l, msg = could_not_parse l ∧ (regidx_parse_tab l).1 = 0
       ∧ (4 ≤ length (tokens l))%nat.
Proof.
  destruct line as [l|]; simpl; [|done].
  destruct (ploidy_parse _ _ _ _) as [po|m] eqn:Hp; simpl.
  - by destruct (po_ret po =? 0), (po_ret po =? -1).
  - intros [= <-]. exists l. by eapply ploidy_parse_exit.
Qed.



Lemma regidx_init_lines_outcome lines d h pld :
  reachable regidx_parse_tab d h pld →
  match regidx_init_lines regidx_parse_tab lines pld with
  | Return r => ∀ pld', r = Some pld' → ∃ h', reachable regidx_parse_tab d h' pld'
  | Exit msg => ∃ l, msg = could_not_parse l ∧ (regidx_parse_tab l).1 = 0
                     ∧ (4 ≤ length (tokens l))%nat
  end.
Proof.
  revert h pld. induction lines as [|line lines IH]; intros h pld Hr; cbn [regidx_init_lines].
  - cbn [regidx_insert obind snd]. intros pld' [= <-]. by exists h.
  - destruct (regidx_insert regidx_parse_tab pld (Some line)) as [[r pld']|msg] eqn:Hins;
      cbn [obind fst snd].
    + destruct (negb (r =? 0)); [by intros pld'' [=]|]. eapply IH. by eapply reach_insert.
    + by eapply regidx_insert_exit.
Qed.


End Construction.

(** On a reachable table a query with a vector of at least [nsex] slots,
    or with none, has a result: no access leaves the vector. *)
Lemma ploidy_query_defined tab d h pld seq pos out :
  reachable tab d h pld → fits pld (q_sex2ploidy out) →
  is_Some (ploidy_query pld seq pos out).
Proof.
  intros Hr Hfit. rewrite ploidy_query_eq.
  destruct (_ && _ && _); [by eexists|].
  rewrite (fill_dflt_opt_spec _ _ Hfit). cbn [mbind option_bind].
  destruct (decide _); [by eexists|].
  destruct (q_sex2ploidy out) as [b|]; cbn [fmap option_fmap option_map].
  - simpl in Hfit.
    destruct (reduce_slots (dflt pld) (visited pld seq pos) (filled pld b) INT_MAX (-1))
      as (b' & mn & mx & -> & _).
    { intros sp Hin. rewrite filled_length by done.
      pose proof (reachable_visited tab d h pld seq pos sp Hr Hin). lia. }
    by eexists.
  - destruct (reduce_no_vector (dflt pld) (visited pld seq pos) INT_MAX (-1))
      as (mn & mx & ->).
    by eexists.
Qed.

(** What [if ( p ) *p = v;] leaves: [v] behind a pointer that is not
    NULL, nothing behind NULL. *)
Lemma assign_written p v :
  (is_Some p → assign p v = Some v) ∧ (p = None → assign p v = None).
Proof. destruct p; split; [done|done|by intros [? [=]]|done]. Qed.

(** * The claims *)

(** ** Queries *)

(** C3. For every table and every position of a sequence that no stored
    region covers, the query returns 0 (not found), writes the default
    ploidy to the min and to the max output when they are asked for,
    and, when the vector is asked for, sets each of its [ploidy_nsex]
    slots to the default ploidy. *)
Theorem ploidy_query_no_overlap pld seq pos out :
  (∀ rp, rp ∈ stored pld seq → ¬ covers pos rp.1) →
  fits pld (q_sex2ploidy out) →
  ∃ out',
    ploidy_query pld seq pos out = Some (0, out') ∧
    (is_Some (q_min out) → q_min out' = Some (dflt pld)) ∧
    (q_min out = None → q_min out' = None) ∧
    (is_Some (q_max out) → q_max out' = Some (dflt pld)) ∧
    (q_max out = None → q_max out' = None) ∧
    (q_sex2ploidy out = None → q_sex2ploidy out' = None) ∧
    ∀ b, q_sex2ploidy out = Some b →
      ∃ b', q_sex2ploidy out' = Some b' ∧ length b' = length b ∧
        ∀ s, 0 ≤ s < ploidy_nsex pld → b' !! Z.to_nat s = Some (dflt pld).
Proof.
  intros Hno Hfit. eexists. split.
  - apply ploidy_query_none; [by apply visited_empty|done].
  - cbn [q_min q_max q_sex2ploidy].
    destruct (assign_written (q_min out) (dflt pld)) as [Hm1 Hm2].
    destruct (assign_written (q_max out) (dflt pld)) as [Hx1 Hx2].
    split_and!; [done|done|done|done|by intros ->|].
    intros b Hb. rewrite Hb in *. exists (filled pld b). simpl in Hfit.
    split_and!; [done|by apply filled_length|by apply filled_lookup].
Qed.

(** C4. When some stored region covers the position and every record
    whose region covers it has the default ploidy, the query returns 1
    (found) and writes the default ploidy to both the min and the max
    output. *)
Theorem ploidy_query_all_default pld seq pos buf m0 x0 :
  (∃ rp, rp ∈ stored pld seq ∧ covers pos rp.1) →
  (∀ rp, rp ∈ stored pld seq → covers pos rp.1 → ploidy rp.2 = dflt pld) →
  fits pld buf →
  ∃ out',
    ploidy_query pld seq pos {| q_sex2ploidy := buf; q_min := Some m0; q_max := Some x0 |}
      = Some (1, out') ∧
    q_min out' = Some (dflt pld) ∧ q_max out' = Some (dflt pld).
Proof.
  intros Hex%visited_nonempty Hall Hfit.
  rewrite ploidy_query_some; [|done|done|by destruct buf].
  cbn [q_sex2ploidy q_min q_max].
  rewrite (reduce_all_default _ _ _ _ _ (visited_all_default _ _ _ Hall)).
  cbn [mbind option_bind].
  eexists. split; [done|]. done.
Qed.

(** C10. Whenever the query is asked for both the min and the max, the
    value it writes to min is at most the value it writes to max,
    whether or not a region overlaps and whatever the ploidies of the
    records are; the query has a result unless a vector is passed and
    an access leaves it. *)
Theorem ploidy_query_min_le_max pld seq pos buf m0 x0 :
  match ploidy_query pld seq pos
          {| q_sex2ploidy := buf; q_min := Some m0; q_max := Some x0 |} with
  | Some (_, out') => ∃ mn mx, q_min out' = Some mn ∧ q_max out' = Some mx ∧ mn ≤ mx
  | None => is_Some buf
  end.
Proof.
  rewrite ploidy_query_eq. cbn [q_sex2ploidy q_min q_max].
  replace (is_null buf && is_null (Some m0) && is_null (Some x0)) with false
    by (by destruct buf).
  destruct buf as [b|].
  - cbn [fill_dflt_opt]. destruct (fill_dflt _ _ _ _) as [b1|]; [|by eexists].
    cbn [fmap option_fmap option_map mbind option_bind].
    destruct (decide _).
    { exists (dflt pld), (dflt pld). done. }
    destruct (reduce _ _ _ _ _) as [[[buf' mn] mx]|] eqn:Hr; [|by eexists].
    cbn [mbind option_bind assign q_min q_max].
    eexists _, _. split_and!; [done|done|].
    apply collapse_le. eapply reduce_bounds; [done|]. by right.
  - cbn [fill_dflt_opt mbind option_bind].
    destruct (decide _).
    { exists (dflt pld), (dflt pld). done. }
    destruct (reduce_no_vector (dflt pld) (visited pld seq pos) INT_MAX (-1))
      as (mn & mx & Hr).
    rewrite Hr. cbn [mbind option_bind assign q_min q_max].
    eexists _, _. split_and!; [done|done|].
    apply collapse_le. eapply reduce_bounds; [done|]. by right.
Qed.

(** C1, as the code has it. During a query with at least one
    overlapping record, a record whose ploidy is the default writes
    nothing: after the reduction each slot holds the ploidy of the last
    record gone through for its sex whose ploidy differs from the
    default, and the default when there is no such record. *)
Theorem ploidy_query_slot pld seq pos b m x s :
  visited pld seq pos ≠ [] →
  nsex pld ≤ Z.of_nat (length b) →
  (∀ sp, sp ∈ visited pld seq pos → 0 ≤ sex sp < nsex pld) →
  0 ≤ s < nsex pld →
  ∃ out' b',
    ploidy_query pld seq pos {| q_sex2ploidy := Some b; q_min := m; q_max := x |}
      = Some (1, out') ∧
    q_sex2ploidy out' = Some b' ∧
    b' !! Z.to_nat s = Some (slot_value (dflt pld) s (visited pld seq pos)).
Proof.
  intros Hv Hfit Hsex Hs.
  rewrite ploidy_query_some; [|done|done|done].
  cbn [q_sex2ploidy q_min q_max fmap option_fmap option_map].
  destruct (reduce_slots (dflt pld) (visited pld seq pos) (filled pld b) INT_MAX (-1))
    as (b' & mn & mx & -> & Hlen & Hslot).
  { intros sp Hin. rewrite filled_length by done. specialize (Hsex sp Hin). lia. }
  cbn [mbind option_bind]. eexists _, b'. split_and!; [done|done|].
  rewrite Hslot by lia. unfold slot_value.
  destruct (last _); [done|]. by apply filled_lookup.
Qed.

Lemma ploidy_query_no_overlap_witness :
  (∀ rp, rp ∈ stored tableB "chr1" → ¬ covers 5000 rp.1) ∧
  fits tableB (q_sex2ploidy out3) ∧
  ploidy_query tableB "chr1" 5000 out3
    = Some (0, {| q_sex2ploidy := Some [2; 2]; q_min := Some 2; q_max := Some 2 |}) ∧
  ∃ out',
    ploidy_query tableB "chr1" 5000 out3 = Some (0, out') ∧
    (is_Some (q_min out3) → q_min out' = Some (dflt tableB)) ∧
    (q_min out3 = None → q_min out' = None) ∧
    (is_Some (q_max out3) → q_max out' = Some (dflt tableB)) ∧
    (q_max out3 = None → q_max out' = None) ∧
    (q_sex2ploidy out3 = None → q_sex2ploidy out' = None) ∧
    ∀ b, q_sex2ploidy out3 = Some b →
      ∃ b', q_sex2ploidy out' = Some b' ∧ length b' = length b ∧
        ∀ s, 0 ≤ s < ploidy_nsex tableB → b' !! Z.to_nat s = Some (dflt tableB).
Proof.
  assert (∀ rp, rp ∈ stored tableB "chr1" → ¬ covers 5000 rp.1) as H1.
  { assert (stored tableB "chr1" = []) as -> by (vm_compute; reflexivity).
    intros rp H. by apply elem_of_nil in H. }
  assert (fits tableB (q_sex2ploidy out3)) as H2.
  { assert (nsex tableB = 2) as E by (vm_compute; reflexivity).
    simpl. rewrite E. simpl. lia. }
  split_and!; [exact H1|exact H2|vm_compute; reflexivity|].
  exact (ploidy_query_no_overlap tableB "chr1" 5000 out3 H1 H2).
Defined.

Lemma ploidy_query_all_default_witness :
  (∃ rp, rp ∈ stored tableDefault "chrX" ∧ covers 5 rp.1) ∧
  (∀ rp, rp ∈ stored tableDefault "chrX" → covers 5 rp.1 → ploidy rp.2 = dflt tableDefault) ∧
  fits tableDefault (Some [0]) ∧
  ∃ out',
    ploidy_query tableDefault "chrX" 5
      {| q_sex2ploidy := Some [0]; q_min := Some 0; q_max := Some 0 |} = Some (1, out') ∧
    q_min out' = Some (dflt tableDefault) ∧ q_max out' = Some (dflt tableDefault).
Proof.
  assert (stored tableDefault "chrX"
          = [({| start := 1; end_ := 10 |}, {| sex := 0; ploidy := 2 |})]) as Hst
    by (vm_compute; reflexivity).
  assert (∃ rp, rp ∈ stored tableDefault "chrX" ∧ covers 5 rp.1) as H1.
  { rewrite Hst. eexists. split; [apply list_elem_of_here|]. vm_compute. split; discriminate. }
  assert (∀ rp, rp ∈ stored tableDefault "chrX" → covers 5 rp.1
                → ploidy rp.2 = dflt tableDefault) as H2.
  { rewrite Hst. intros rp ->%list_elem_of_singleton _. vm_compute. reflexivity. }
  assert (fits tableDefault (Some [0])) as H3.
  { assert (nsex tableDefault = 1) as E by (vm_compute; reflexivity).
    simpl. rewrite E. simpl. lia. }
  split_and!; [exact H1|exact H2|exact H3|].
  exact (ploidy_query_all_default tableDefault "chrX" 5 (Some [0]) 0 0 H1 H2 H3).
Defined.

Lemma ploidy_query_slot_witness :
  visited tableSameSex "chrX" 5 ≠ [] ∧
  nsex tableSameSex ≤ Z.of_nat (length [0]) ∧
  (∀ sp, sp ∈ visited tableSameSex "chrX" 5 → 0 ≤ sex sp < nsex tableSameSex) ∧
  0 ≤ 0 < nsex tableSameSex ∧
  ∃ out' b',
    ploidy_query tableSameSex "chrX" 5
      {| q_sex2ploidy := Some [0]; q_min := None; q_max := None |} = Some (1, out') ∧
    q_sex2ploidy out' = Some b' ∧
    b' !! Z.to_nat 0 = Some (slot_value (dflt tableSameSex) 0 (visited tableSameSex "chrX" 5)).
Proof.
  assert (visited tableSameSex "chrX" 5
          = [{| sex := 0; ploidy := 1 |}; {| sex := 0; ploidy := 2 |}]) as Hv
    by (vm_compute; reflexivity).
  assert (nsex tableSameSex = 1) as E by (vm_compute; reflexivity).
  assert (visited tableSameSex "chrX" 5 ≠ []) as H1 by (by rewrite Hv).
  assert (nsex tableSameSex ≤ Z.of_nat (length [0])) as H2 by (rewrite E; simpl; lia).
  assert (∀ sp, sp ∈ visited tableSameSex "chrX" 5 → 0 ≤ sex sp < nsex tableSameSex) as H3.
  { rewrite Hv, E. intros sp Hin. apply elem_of_cons in Hin as [->|Hin]; [simpl; lia|].
    apply list_elem_of_singleton in Hin as ->. simpl; lia. }
  assert (0 ≤ 0 < nsex tableSameSex) as H4 by (rewrite E; lia).
  split_and!; [exact H1|exact H2|exact H3|apply H4|apply H4|].
  exact (ploidy_query_slot tableSameSex "chrX" 5 [0] None None 0 H1 H2 H3 H4).
Defined.

(** C1, as it is stated, fails: the table is built from two records of
    sex M on one region, the first with ploidy 1 and the second with the
    default 2.  The last record of M the query goes through has the
    default ploidy, and the slot of M holds 1. *)
Lemma ploidy_query_slot_counterexample :
  ploidy_init_string parse_tab sameSex 2 = Return (Some tableSameSex) ∧
  last (filter (λ sp, sex sp = 0) (visited tableSameSex "chrX" 5))
    = Some {| sex := 0; ploidy := dflt tableSameSex |} ∧
  ploidy_query tableSameSex "chrX" 5
    {| q_sex2ploidy := Some [0]; q_min := None; q_max := None |}
    = Some (1, {| q_sex2ploidy := Some [1]; q_min := None; q_max := None |}) ∧
  1 ≠ dflt tableSameSex.
Proof. split_and!; [vm_compute; reflexivity..|vm_compute; discriminate]. Qed.

(** ** The parser *)

(** C2, as the code has it. For a line whose first three fields the
    tabular parser accepts and that has fewer than four tokens, the
    record parser does not call [error]: it returns -2 ("wrong number of
    fields") with the payload and the table untouched, and the insertion
    of the line fails with -1, a value the loader can test. *)
Theorem ploidy_parse_too_few_fields tab line payload usr :
  (tab line).1 = 0 → (length (tokens line) < 4)%nat →
  ∃ po,
    ploidy_parse tab line payload usr = Return po ∧
    po_ret po = -2 ∧ po_usr po = usr ∧ po_payload po = payload ∧
    regidx_insert tab usr (Some line) = Return (-1, usr).
Proof.
  intros Hacc Hlen. eexists. split; [by apply ploidy_parse_wrong_fields|].
  split_and!; [done..|].
  unfold regidx_insert. by rewrite ploidy_parse_wrong_fields.
Qed.

Lemma ploidy_parse_too_few_fields_witness :
  (parse_tab shortLine).1 = 0 ∧ (length (tokens shortLine) < 4)%nat ∧
  ∃ po,
    ploidy_parse parse_tab shortLine payload0 tableB = Return po ∧
    po_ret po = -2 ∧ po_usr po = tableB ∧ po_payload po = payload0 ∧
    regidx_insert parse_tab tableB (Some shortLine) = Return (-1, tableB).
Proof.
  assert ((parse_tab shortLine).1 = 0) as H1 by (vm_compute; reflexivity).
  assert (length (tokens shortLine) < 4)%nat as H2 by (vm_compute; lia).
  split_and!; [exact H1|exact H2|].
  exact (ploidy_parse_too_few_fields parse_tab shortLine payload0 tableB H1 H2).
Defined.

(** C2, as it is stated, fails: the coordinates of [chr1 100 200] are
    accepted and the line has three tokens; the parser returns -2, it
    does not exit, and construction from a file with this line returns
    NULL to its caller. *)
Lemma ploidy_parse_too_few_fields_counterexample :
  (parse_tab shortLine).1 = 0 ∧ length (tokens shortLine) = 3%nat ∧
  (∀ msg, ploidy_parse parse_tab shortLine payload0 (ploidy_new 2) ≠ Exit msg) ∧
  ploidy_init parse_tab (Some [shortLine]) 2 = Return None.
Proof.
  split_and!; [vm_compute; reflexivity..| |vm_compute; reflexivity].
  intros msg. vm_compute. discriminate.
Qed.



(** ** The accessors *)

(** C5. In every table reached by construction, insertions and calls of
    [ploidy_add_sex], [ploidy_min] is [min(default, observed_min)] and
    [ploidy_max] is [max(default, observed_max)]; hence
    [ploidy_min ≤ ploidy_max], and both are the default ploidy as long
    as no record has been parsed. *)
Theorem ploidy_min_max_reachable tab d h pld :
  reachable tab d h pld →
  ploidy_min pld = Z.min (dflt pld) (min pld) ∧
  ploidy_max pld = Z.max (dflt pld) (max pld) ∧
  ploidy_min pld ≤ ploidy_max pld ∧
  dflt pld = d ∧
  (records h = 0%nat → ploidy_min pld = d ∧ ploidy_max pld = d).
Proof.
  intros (Hd & Hb & _ & Hz)%reachable_inv. unfold ploidy_min, ploidy_max.
  destruct (Z.ltb_spec (dflt pld) (min pld)), (Z.ltb_spec (max pld) (dflt pld));
    split_and!; try lia; intros [? ?]%Hz; lia.
Qed.

(** The table of the first record of scenario B, with its history. *)
Lemma tableM_reachable : reachable parse_tab 2 [EvRecord lineM1] tableM.
Proof.
  assert (regidx_insert parse_tab (ploidy_new 2) (Some lineM1) = Return (0, tableM)) as Hins
    by (vm_compute; reflexivity).
  exact (reach_insert parse_tab 2 [] (ploidy_new 2) (Some lineM1) 0 tableM
           (reach_new parse_tab 2) Hins).
Defined.

Lemma ploidy_min_max_reachable_witness :
  reachable parse_tab 2 [EvRecord lineM1] tableM ∧
  ploidy_min tableM = Z.min (dflt tableM) (min tableM) ∧
  ploidy_max tableM = Z.max (dflt tableM) (max tableM) ∧
  ploidy_min tableM ≤ ploidy_max tableM ∧
  dflt tableM = 2 ∧
  (records [EvRecord lineM1] = 0%nat → ploidy_min tableM = 2 ∧ ploidy_max tableM = 2).
Proof.
  split; [exact tableM_reachable|].
  exact (ploidy_min_max_reachable parse_tab 2 [EvRecord lineM1] tableM tableM_reachable).
Defined.

(** C8. [ploidy_add_sex] is idempotent: a second call with the same name
    returns the same id and leaves the table, hence [ploidy_nsex], as
    the first call left it; and in a reachable table [ploidy_sex2id]
    returns -1 for every name that is neither the sex token of a record
    parsed nor a name given to [ploidy_add_sex]. *)
Theorem ploidy_add_sex_idempotent tab d h pld name :
  reachable tab d h pld →
  (let first := ploidy_add_sex pld name in
   let second := ploidy_add_sex first.2 name in
   second.1 = first.1 ∧ second.2 = first.2 ∧
   ploidy_nsex second.2 = ploidy_nsex first.2 ∧
   ploidy_sex2id first.2 name = first.1) ∧
  (name ∉ registered h → ploidy_sex2id pld name = -1).
Proof.
  intros (_ & _ & Hdom & _)%reachable_inv. split.
  - cbn zeta. rewrite ploidy_add_sex_again. split_and!; [done..|].
    destruct (ploidy_add_sex_lookup pld name) as [Hn _]. cbn zeta in Hn.
    unfold ploidy_sex2id, khash_str2int_get. by rewrite Hn.
  - intros Hnot. unfold ploidy_sex2id, khash_str2int_get.
    destruct (sex2id pld !! name) as [v|] eqn:E; [|done].
    destruct Hnot. apply Hdom, elem_of_dom. by eexists.
Qed.

Lemma ploidy_add_sex_idempotent_witness :
  reachable parse_tab 2 [EvRecord lineM1] tableM ∧
  ("F" ∉ registered [EvRecord lineM1]) ∧
  (let first := ploidy_add_sex tableM "F" in
   let second := ploidy_add_sex first.2 "F" in
   second.1 = first.1 ∧ second.2 = first.2 ∧
   ploidy_nsex second.2 = ploidy_nsex first.2 ∧
   ploidy_sex2id first.2 "F" = first.1) ∧
  ploidy_sex2id tableM "F" = -1.
Proof.
  assert ("F" ∉ registered [EvRecord lineM1]) as Hnot.
  { unfold registered. change (tokens lineM1 !! 3%nat) with (Some "M").
    rewrite not_elem_of_union, not_elem_of_singleton. split; [done|].
    apply not_elem_of_empty. }
  destruct (ploidy_add_sex_idempotent parse_tab 2 [EvRecord lineM1] tableM "F"
              tableM_reachable) as [Hidem Hfree].
  split_and!; [exact tableM_reachable|exact Hnot|exact Hidem|exact (Hfree Hnot)].
Defined.

(** ** Construction *)



(** The contrast of C9 on one input: the second line has a malformed
    start.  The file constructor returns NULL; the string constructor
    returns the table of the first line. *)
Lemma ploidy_init_string_malformed_example :
  (parse_tab badLine).1 = -2 ∧
  ploidy_init parse_tab (Some [lineM1; badLine]) 2 = Return None ∧
  ploidy_init_string parse_tab badPreset 2 = Return (Some tableM).
Proof. split_and!; vm_compute; reflexivity. Qed.

(** ** Scenario B *)

Section Extensionality.

Variables tab tab' : string → Z * (string * reg_t).
Hypothesis tab_eq : ∀ l, tab l = tab' l.

(** Construction depends on the tabular parser only through its
    answers. *)
Lemma ploidy_parse_ext line payload usr :
  ploidy_parse tab line payload usr = ploidy_parse tab' line payload usr.
Proof. unfold ploidy_parse. by rewrite tab_eq. Qed.

Lemma regidx_insert_ext pld line :
  regidx_insert tab pld line = regidx_insert tab' pld line.
Proof. destruct line as [l|]; [|done]. unfold regidx_insert. by rewrite ploidy_parse_ext. Qed.

Lemma init_string_loop_ext fuel ss pld :
  init_string_loop tab fuel ss pld = init_string_loop tab' fuel ss pld.
Proof.
  revert ss pld. induction fuel as [|fuel IH]; intros ss pld; [done|].
  cbn [init_string_loop]. destruct (at_nul ss); [done|].
  rewrite regidx_insert_ext.
  destruct (regidx_insert tab' _ _) as [[r pld']|]; [|done]. apply IH.
Qed.

Lemma ploidy_init_string_ext str d :
  ploidy_init_string tab str d = ploidy_init_string tab' str d.
Proof.
  unfold ploidy_init_string. rewrite init_string_loop_ext.
  destruct (init_string_loop tab' _ _ _) as [pld|]; [|done].
  cbn [obind]. by rewrite regidx_insert_ext.
Qed.

End Extensionality.

(** The table that scenario B builds. *)
Lemma scenarioB_built tab r1 r2 :
  tab lineM1 = (0, ("chrX", r1)) → tab lineF2 = (0, ("chrX", r2)) →
  ploidy_init_string tab scenarioB 2 = Return (Some (scenarioB_table r1 r2)).
Proof.
  intros H1 H2.
  rewrite (ploidy_init_string_ext tab
             (tab_override (tab_override tab lineF2 (0, ("chrX", r2)))
                lineM1 (0, ("chrX", r1)))).
  - vm_compute. reflexivity.
  - intros l. unfold tab_override. repeat case_decide; congruence.
Qed.

Lemma scenarioB_visited r1 r2 :
  covers 5000 r1 → covers 5000 r2 →
  visited (scenarioB_table r1 r2) "chrX" 5000
  = [{| sex := 0; ploidy := 1 |}; {| sex := 1; ploidy := 2 |}].
Proof.
  intros H1%reg_overlaps_covers H2%reg_overlaps_covers. unfold visited.
  assert (stored (scenarioB_table r1 r2) "chrX"
          = [(r1, {| sex := 0; ploidy := 1 |}); (r2, {| sex := 1; ploidy := 2 |})]) as ->
    by (vm_compute; reflexivity).
  cbn [first_overlap fst]. rewrite H1. cbn [overlap_run fst snd]. by rewrite H1, H2.
Qed.

(** C7, as the code has it. With the default 2 and the records
    [chrX 0 155270560 M 1] and [chrX 0 155270560 F 2], accepted by the
    tabular parser with regions of chrX that cover position 5000, M gets
    id 0 and F id 1; the query at chrX:5000 returns 1 (found) with the
    vector [1, 2], min 1 and max 1: the record of F is at the default
    and does not move the bounds.  A query on chr1, which has no region,
    returns 0 with the vector [2, 2] and min and max 2. *)
Theorem scenarioB_query tab r1 r2 :
  tab lineM1 = (0, ("chrX", r1)) → tab lineF2 = (0, ("chrX", r2)) →
  covers 5000 r1 → covers 5000 r2 →
  ∃ pld,
    ploidy_init_string tab scenarioB 2 = Return (Some pld) ∧
    ploidy_sex2id pld "M" = 0 ∧ ploidy_sex2id pld "F" = 1 ∧ ploidy_nsex pld = 2 ∧
    ploidy_query pld "chrX" 5000 out3
      = Some (1, {| q_sex2ploidy := Some [1; 2]; q_min := Some 1; q_max := Some 1 |}) ∧
    ∀ pos, ploidy_query pld "chr1" pos out3
      = Some (0, {| q_sex2ploidy := Some [2; 2]; q_min := Some 2; q_max := Some 2 |}).
Proof.
  intros H1 H2 Hc1 Hc2. exists (scenarioB_table r1 r2).
  split; [by apply scenarioB_built|].
  split_and!; [vm_compute; reflexivity..| |].
  - rewrite ploidy_query_eq, (scenarioB_visited _ _ Hc1 Hc2). vm_compute. reflexivity.
  - intros pos. rewrite ploidy_query_none.
    + vm_compute. reflexivity.
    + apply visited_empty.
      assert (stored (scenarioB_table r1 r2) "chr1" = []) as -> by (vm_compute; reflexivity).
      by intros rp H%elem_of_nil.
    + vm_compute. discriminate.
Qed.

Lemma scenarioB_query_witness :
  parse_tab lineM1 = (0, ("chrX", {| start := 0; end_ := 155270560 |})) ∧
  parse_tab lineF2 = (0, ("chrX", {| start := 0; end_ := 155270560 |})) ∧
  covers 5000 {| start := 0; end_ := 155270560 |} ∧
  ∃ pld,
    ploidy_init_string parse_tab scenarioB 2 = Return (Some pld) ∧
    ploidy_sex2id pld "M" = 0 ∧ ploidy_sex2id pld "F" = 1 ∧ ploidy_nsex pld = 2 ∧
    ploidy_query pld "chrX" 5000 out3
      = Some (1, {| q_sex2ploidy := Some [1; 2]; q_min := Some 1; q_max := Some 1 |}) ∧
    ∀ pos, ploidy_query pld "chr1" pos out3
      = Some (0, {| q_sex2ploidy := Some [2; 2]; q_min := Some 2; q_max := Some 2 |}).
Proof.
  assert (parse_tab lineM1 = (0, ("chrX", {| start := 0; end_ := 155270560 |}))) as H1
    by (vm_compute; reflexivity).
  assert (parse_tab lineF2 = (0, ("chrX", {| start := 0; end_ := 155270560 |}))) as H2
    by (vm_compute; reflexivity).
  assert (covers 5000 {| start := 0; end_ := 155270560 |}) as Hc
    by (vm_compute; split; discriminate).
  split_and!; [exact H1|exact H2|exact Hc|].
  exact (scenarioB_query parse_tab _ _ H1 H2 Hc Hc).
Defined.

(** C7, as it is stated, fails: on the table built from the two records
    the query at chrX:5000 writes 1 to max, not 2. *)
Lemma scenarioB_query_counterexample :
  ploidy_init_string parse_tab scenarioB 2 = Return (Some tableB) ∧
  ploidy_query tableB "chrX" 5000 out3
    = Some (1, {| q_sex2ploidy := Some [1; 2]; q_min := Some 1; q_max := Some 1 |}) ∧
  Some 1 ≠ Some 2.
Proof. split_and!; [vm_compute; reflexivity..|discriminate]. Qed.

(** * Further properties *)

(** ** The capacity of the array of names *)

Lemma land_le_l a b : 0 ≤ a → Z.land a b ≤ a.
Proof.
  intros Ha.
  assert (Z.land (Z.ldiff a b) (Z.land a b) = 0) as Hdisj.
  { apply Z.bits_inj'. intros n Hn.
    rewrite Z.land_spec, Z.ldiff_spec, Z.land_spec, Z.bits_0.
    by destruct (Z.testbit a n), (Z.testbit b n). }
  pose proof (Z.add_nocarry_lor _ _ Hdisj) as Hadd.
  rewrite Z.lor_ldiff_and in Hadd.
  assert (0 ≤ Z.ldiff a b) by (apply Z.ldiff_nonneg; by left).
  lia.
Qed.

Lemma lor_ge_l a b : 0 ≤ a → 0 ≤ b → a ≤ Z.lor a b.
Proof.
  intros Ha Hb. pose proof (Z.add_lor_land a b).
  pose proof (land_le_l b a Hb). rewrite (Z.land_comm b a) in *. lia.
Qed.

Lemma lor_lt_pow2 a b k :
  0 < k → 0 ≤ a < 2 ^ k → 0 ≤ b < 2 ^ k → 0 ≤ Z.lor a b < 2 ^ k.
Proof.
  intros Hk Ha Hb.
  assert (0 ≤ Z.lor a b) as H0 by (apply Z.lor_nonneg; lia).
  split; [done|].
  destruct (decide (Z.lor a b = 0)) as [->|Hne]; [lia|].
  apply Z.log2_lt_pow2; [lia|]. rewrite Z.log2_lor by lia.
  assert (∀ x, 0 ≤ x < 2 ^ k → Z.log2 x < k) as Hlog.
  { intros x Hx. destruct (decide (x = 0)) as [->|]; [simpl; lia|].
    apply Z.log2_lt_pow2; lia. }
  pose proof (Hlog a Ha). pose proof (Hlog b Hb). lia.
Qed.

Lemma shiftr_bounds x j k :
  0 ≤ j → 0 ≤ x < 2 ^ k → 0 ≤ Z.shiftr x j < 2 ^ k.
Proof.
  intros Hj Hx. rewrite Z.shiftr_div_pow2 by done.
  assert (0 < 2 ^ j) by (apply Z.pow_pos_nonneg; lia).
  split; [apply Z.div_pos; lia|].
  apply Z.div_lt_upper_bound; [done|]. nia.
Qed.

(** Up to 2^30 entries [kroundup32] gives room for all of them. *)
Lemma kroundup32_ge n : 1 ≤ n ≤ 2 ^ 30 → n ≤ kroundup32 n.
Proof.
  intros Hn. unfold kroundup32, to_u32, to_int.
  rewrite (Z.mod_small (n - 1)) by lia.
  assert (∀ x j, 0 ≤ j → 0 ≤ x < 2 ^ 30 →
            x ≤ Z.lor x (Z.shiftr x j) ∧ 0 ≤ Z.lor x (Z.shiftr x j) < 2 ^ 30) as Hstep.
  { intros x j Hj Hx. pose proof (shiftr_bounds x j 30 Hj Hx).
    split; [apply lor_ge_l; lia|apply lor_lt_pow2; lia]. }
  set (x0 := n - 1).
  destruct (Hstep x0 1 ltac:(lia) ltac:(unfold x0; lia)) as [H1 B1].
  set (x1 := Z.lor x0 (Z.shiftr x0 1)) in *.
  destruct (Hstep x1 2 ltac:(lia) B1) as [H2 B2].
  set (x2 := Z.lor x1 (Z.shiftr x1 2)) in *.
  destruct (Hstep x2 4 ltac:(lia) B2) as [H3 B3].
  set (x3 := Z.lor x2 (Z.shiftr x2 4)) in *.
  destruct (Hstep x3 8 ltac:(lia) B3) as [H4 B4].
  set (x4 := Z.lor x3 (Z.shiftr x3 8)) in *.
  destruct (Hstep x4 16 ltac:(lia) B4) as [H5 B5].
  set (x5 := Z.lor x4 (Z.shiftr x4 16)) in *.
  rewrite (Z.mod_small (x5 + 1 + 2 ^ 31)) by lia.
  unfold x0 in *. lia.
Qed.

(** [hts_expand0] leaves the old slots as they are and makes room for
    [n] of them. *)
Lemma hts_expand0_spec n m ptr :
  length ptr = Z.to_nat m → 0 ≤ m → 1 ≤ n ≤ 2 ^ 30 →
  let r := hts_expand0 n m ptr in
  length r.2 = Z.to_nat r.1 ∧ n ≤ r.1 ∧ m ≤ r.1 ∧
  ∀ i, (i < length ptr)%nat → r.2 !! i = ptr !! i.
Proof.
  intros Hlen Hm Hn. unfold hts_expand0.
  destruct (Z.ltb_spec m n) as [Hlt|Hge]; simpl.
  - pose proof (kroundup32_ge n Hn).
    rewrite length_app, length_replicate. split_and!; [lia|lia|lia|].
    intros i Hi. by rewrite lookup_app_l.
  - split_and!; [done|lia|lia|done].
Qed.

(** ** Names and ids *)

(** A registration keeps array and dictionary in step, as long as no
    more than 2^30 names are registered. *)
Lemma ploidy_add_sex_id2sex pld name :
  registry_ok pld → id2sex_ok pld →
  nsex (ploidy_add_sex pld name).2 ≤ 2 ^ 30 →
  id2sex_ok (ploidy_add_sex pld name).2.
Proof.
  intros [Hn Hv] (Hlen & Hcap & Htot & Hiff).
  unfold ploidy_add_sex, khash_str2int_get.
  destruct (sex2id pld !! name) as [v|] eqn:E; [done|].
  unfold register_sex, khash_str2int_inc. rewrite E.
  assert (0 ≤ nsex pld) as Hn0 by lia.
  destruct (hts_expand0 (nsex pld + 1) (msex pld) (id2sex pld)) as [m' arr] eqn:Hexp.
  cbn [snd nsex]. intros Hbound.
  destruct (hts_expand0_spec (nsex pld + 1) (msex pld) (id2sex pld) Hlen ltac:(lia) ltac:(lia))
    as (Hlen' & Hroom & Hmono & Hold).
  rewrite Hexp in Hlen', Hroom, Hmono, Hold. cbn [fst snd] in *.
  replace (nsex pld + 1 - 1) with (nsex pld) by lia.
  assert (∀ id, 0 ≤ id < nsex pld →
            <[Z.to_nat (nsex pld) := Some name]> arr !! Z.to_nat id
            = id2sex pld !! Z.to_nat id) as Hlow.
  { intros id Hid. rewrite list_lookup_insert_ne by lia. apply Hold. lia. }
  assert (<[Z.to_nat (nsex pld) := Some name]> arr !! Z.to_nat (nsex pld)
          = Some (Some name)) as Hnew.
  { apply list_lookup_insert_eq. lia. }
  unfold id2sex_ok. cbn [id2sex msex nsex sex2id].
  split_and!.
  - rewrite length_insert. done.
  - lia.
  - intros id Hid. destruct (decide (id = nsex pld)) as [->|Hne].
    + by exists name.
    + rewrite Hlow by lia. apply Htot. lia.
  - intros name' id. rewrite <- Hn. destruct (decide (name = name')) as [<-|Hne'].
    + rewrite lookup_insert_eq. split.
      * intros [= <-]. split; [lia|done].
      * intros [Hid Hl]. destruct (decide (id = nsex pld)) as [->|Hne]; [done|].
        rewrite Hlow in Hl by lia.
        assert (sex2id pld !! name = Some id) as Hin by (apply Hiff; split; [lia|done]).
        congruence.
    + rewrite lookup_insert_ne by done. rewrite Hiff. split.
      * intros [Hid Hl]. split; [lia|]. by rewrite Hlow.
      * intros [Hid Hl]. destruct (decide (id = nsex pld)) as [->|Hne].
        { rewrite Hnew in Hl. congruence. }
        rewrite Hlow in Hl by lia. split; [lia|done].
Qed.

Lemma ploidy_add_sex_injective pld name :
  registry_ok pld → ids_injective pld → ids_injective (ploidy_add_sex pld name).2.
Proof.
  intros [Hn Hv] Hinj.
  unfold ploidy_add_sex, register_sex, khash_str2int_get, khash_str2int_inc.
  destruct (sex2id pld !! name) as [v|] eqn:E; [done|].
  destruct (hts_expand0 _ _ _). cbn [snd]. unfold ids_injective. cbn [sex2id].
  intros a b id. rewrite !lookup_insert. repeat case_decide; subst.
  - done.
  - intros [= <-] Hb. specialize (Hv b _ Hb). lia.
  - intros Ha [= <-]. specialize (Hv a _ Ha). lia.
  - apply Hinj.
Qed.

Section RegistryProperties.

Variable regidx_parse_tab : string → Z * (string * reg_t).

(** What an insertion does to the registry is what [ploidy_add_sex]
    does for the sex token, or nothing. *)
Lemma regidx_insert_registry pld line r pld' :
  regidx_insert regidx_parse_tab pld line = Return (r, pld') →
  dflt pld' = dflt pld ∧
  ((nsex pld' = nsex pld ∧ msex pld' = msex pld ∧ sex2id pld' = sex2id pld
    ∧ id2sex pld' = id2sex pld) ∨
   ∃ tok, let a := (ploidy_add_sex (set_tmp_str pld tok) tok).2 in
     nsex pld' = nsex a ∧ msex pld' = msex a ∧ sex2id pld' = sex2id a
     ∧ id2sex pld' = id2sex a).
Proof.
  intros Hins.
  destruct (regidx_insert_inv _ _ _ _ _ Hins)
    as [[_ ->]|(l & po & tok & -> & _ & _ & _ & _ & Husr & _ & _ & ->)].
  - split; [done|]. by left.
  - rewrite Husr. cbn [set_idx set_min_max dflt nsex msex sex2id id2sex].
    destruct (ploidy_add_sex_fields (set_tmp_str pld tok) tok) as (Hd & _).
    split; [done|]. right. by exists tok.
Qed.

Lemma reachable_injective d h pld :
  reachable regidx_parse_tab d h pld → ids_injective pld.
Proof.
  induction 1 as [|h pld line r pld' Hr IH Hins|h pld name Hr IH].
  - intros a b id. simpl. by rewrite lookup_empty.
  - destruct (reachable_ids _ _ _ _ Hr) as [Hreg _].
    destruct (regidx_insert_registry _ _ _ _ Hins) as [_ [(_ & _ & Hs & _)|(tok & _ & _ & Hs & _)]];
      unfold ids_injective; rewrite Hs; [done|].
    by apply (ploidy_add_sex_injective (set_tmp_str pld tok) tok).
  - destruct (reachable_ids _ _ _ _ Hr) as [Hreg _].
    by apply ploidy_add_sex_injective.
Qed.

Lemma reachable_id2sex d h pld :
  reachable regidx_parse_tab d h pld → nsex pld ≤ 2 ^ 30 → id2sex_ok pld.
Proof.
  induction 1 as [|h pld line r pld' Hr IH Hins|h pld name Hr IH]; intros Hbound.
  - unfold id2sex_ok. simpl. split_and!; [done|lia|intros; lia|].
    intros name id. rewrite lookup_empty. split; [done|lia].
  - destruct (reachable_ids _ _ _ _ Hr) as [Hreg _].
    destruct (regidx_insert_registry _ _ _ _ Hins)
      as [_ [(Hn & Hm & Hs & Ha)|(tok & Hn & Hm & Hs & Ha)]];
      unfold id2sex_ok; rewrite Hn, Hm, Hs, Ha.
    + apply IH. lia.
    + destruct (ploidy_add_sex_registry (set_tmp_str pld tok) tok Hreg) as (_ & _ & Hmono).
      cbn [set_tmp_str nsex] in Hmono.
      apply (ploidy_add_sex_id2sex (set_tmp_str pld tok) tok); [done| |lia].
      apply IH. lia.
  - destruct (reachable_ids _ _ _ _ Hr) as [Hreg _].
    destruct (ploidy_add_sex_registry pld name Hreg) as (_ & _ & Hmono).
    apply ploidy_add_sex_id2sex; [done| |done]. apply IH. lia.
Qed.

End RegistryProperties.

(** X1. Ids are given in the order of first appearance: on a reachable
    table [ploidy_add_sex] returns, for a name that [ploidy_sex2id] does
    not know, the current number of sexes, which then grows by one; for
    a known name it returns the id that [ploidy_sex2id] gives and the
    number of sexes stays.  Afterwards [ploidy_sex2id] gives the id
    returned. *)
Theorem ploidy_add_sex_first_seen tab d h pld name :
  reachable tab d h pld →
  (ploidy_add_sex pld name).1
    = (if decide (ploidy_sex2id pld name = -1) then ploidy_nsex pld
       else ploidy_sex2id pld name) ∧
  ploidy_nsex (ploidy_add_sex pld name).2
    = (if decide (ploidy_sex2id pld name = -1) then ploidy_nsex pld + 1
       else ploidy_nsex pld) ∧
  ploidy_sex2id (ploidy_add_sex pld name).2 name = (ploidy_add_sex pld name).1.
Proof.
  intros [[Hn Hv] _]%reachable_ids.
  destruct (ploidy_add_sex_lookup pld name) as [Hl _]. cbn zeta in Hl.
  split_and!; [| |unfold ploidy_sex2id, khash_str2int_get; by rewrite Hl].
  all: unfold ploidy_sex2id, ploidy_add_sex, ploidy_nsex, register_sex,
         khash_str2int_get, khash_str2int_inc.
  all: destruct (sex2id pld !! name) as [v|] eqn:E.
  all: try (specialize (Hv name v E); case_decide; [lia|done]).
  all: destruct (hts_expand0 _ _ _); cbn [fst snd nsex]; case_decide; [lia|done].
Qed.

Lemma ploidy_add_sex_first_seen_witness :
  reachable parse_tab 2 [EvRecord lineM1] tableM ∧
  (ploidy_add_sex tableM "F").1
    = (if decide (ploidy_sex2id tableM "F" = -1) then ploidy_nsex tableM
       else ploidy_sex2id tableM "F") ∧
  ploidy_nsex (ploidy_add_sex tableM "F").2
    = (if decide (ploidy_sex2id tableM "F" = -1) then ploidy_nsex tableM + 1
       else ploidy_nsex tableM) ∧
  ploidy_sex2id (ploidy_add_sex tableM "F").2 "F" = (ploidy_add_sex tableM "F").1.
Proof.
  split; [exact tableM_reachable|].
  exact (ploidy_add_sex_first_seen parse_tab 2 [EvRecord lineM1] tableM "F" tableM_reachable).
Defined.

(** X2. On a reachable table an id that [ploidy_sex2id] returns for a
    known name lies in [0, ploidy_nsex), and no other name has it. *)
Theorem ploidy_sex2id_injective tab d h pld a :
  reachable tab d h pld → ploidy_sex2id pld a ≠ -1 →
  0 ≤ ploidy_sex2id pld a < ploidy_nsex pld ∧
  ∀ b, ploidy_sex2id pld b = ploidy_sex2id pld a → b = a.
Proof.
  intros Hr. pose proof (reachable_injective _ _ _ _ Hr) as Hinj.
  destruct (reachable_ids _ _ _ _ Hr) as [[Hn Hv] _].
  unfold ploidy_sex2id, khash_str2int_get, ploidy_nsex.
  destruct (sex2id pld !! a) as [ia|] eqn:Ea; [|done]. intros _.
  split; [by apply (Hv a)|].
  intros b. destruct (sex2id pld !! b) as [ib|] eqn:Eb.
  - intros ->. by apply (Hinj b a ia).
  - intros <-. specialize (Hv a _ Ea). lia.
Qed.

Lemma ploidy_sex2id_injective_witness :
  reachable parse_tab 2 [EvRecord lineM1] tableM ∧
  ploidy_sex2id tableM "M" ≠ -1 ∧
  0 ≤ ploidy_sex2id tableM "M" < ploidy_nsex tableM ∧
  ∀ b, ploidy_sex2id tableM b = ploidy_sex2id tableM "M" → b = "M".
Proof.
  assert (ploidy_sex2id tableM "M" ≠ -1) as H by (vm_compute; discriminate).
  split_and!; [exact tableM_reachable|exact H|..];
    apply (ploidy_sex2id_injective parse_tab 2 [EvRecord lineM1] tableM "M"
             tableM_reachable H).
Defined.

(** X3. On a reachable table with at most 2^30 sexes [ploidy_id2sex] and
    [ploidy_sex2id] are inverse to each other: the id of a known name
    leads back to the name, a name found for an id has that id, and
    [ploidy_id2sex] finds a name exactly for the ids in
    [0, ploidy_nsex). *)
Theorem ploidy_id2sex_sex2id tab d h pld :
  reachable tab d h pld → ploidy_nsex pld ≤ 2 ^ 30 →
  (∀ name, ploidy_sex2id pld name ≠ -1 →
     ploidy_id2sex pld (ploidy_sex2id pld name) = Some name) ∧
  (∀ id name, ploidy_id2sex pld id = Some name → ploidy_sex2id pld name = id) ∧
  (∀ id, is_Some (ploidy_id2sex pld id) ↔ 0 ≤ id < ploidy_nsex pld).
Proof.
  intros Hr Hb. destruct (reachable_id2sex _ _ _ _ Hr Hb) as (_ & _ & Htot & Hiff).
  assert (∀ id, ploidy_id2sex pld id
                = if decide (0 ≤ id < nsex pld) then mjoin (id2sex pld !! Z.to_nat id)
                  else None) as Hdef.
  { intros id. unfold ploidy_id2sex.
    destruct (Z.ltb_spec id 0), (Z.leb_spec (nsex pld) id); case_decide; simpl; done || lia. }
  unfold ploidy_sex2id, khash_str2int_get, ploidy_nsex. split_and!.
  - intros name. destruct (sex2id pld !! name) as [id|] eqn:E; [|done]. intros _.
    apply Hiff in E as [Hid Hl]. rewrite Hdef, decide_True by done. by rewrite Hl.
  - intros id name. rewrite Hdef. case_decide as Hid; [|done].
    destruct (id2sex pld !! Z.to_nat id) as [[n|]|] eqn:El; simpl; [|done..].
    intros [= ->].
    assert (sex2id pld !! name = Some id) as -> by (by apply Hiff). done.
  - intros id. rewrite Hdef. case_decide as Hid.
    + destruct (Htot id Hid) as [n ->]. simpl. split; [done|by eexists].
    + split; [by intros [? [=]]|done].
Qed.

Lemma ploidy_id2sex_sex2id_witness :
  reachable parse_tab 2 [EvRecord lineM1] tableM ∧
  ploidy_nsex tableM ≤ 2 ^ 30 ∧
  (∀ name, ploidy_sex2id tableM name ≠ -1 →
     ploidy_id2sex tableM (ploidy_sex2id tableM name) = Some name) ∧
  (∀ id name, ploidy_id2sex tableM id = Some name → ploidy_sex2id tableM name = id) ∧
  (∀ id, is_Some (ploidy_id2sex tableM id) ↔ 0 ≤ id < ploidy_nsex tableM).
Proof.
  assert (ploidy_nsex tableM ≤ 2 ^ 30) as H by (vm_compute; discriminate).
  split_and!; [exact tableM_reachable|exact H|..];
    apply (ploidy_id2sex_sex2id parse_tab 2 [EvRecord lineM1] tableM tableM_reachable H).
Defined.

(** X4. Ids are never reassigned: a line inserted into a reachable
    table, and a call of [ploidy_add_sex], leave the default ploidy and
    the id of every known name as they are, and add at most one sex. *)
Theorem regidx_insert_keeps_ids tab d h pld line r pld' other :
  reachable tab d h pld →
  regidx_insert tab pld line = Return (r, pld') →
  dflt pld' = dflt pld ∧
  ploidy_nsex pld ≤ ploidy_nsex pld' ≤ ploidy_nsex pld + 1 ∧
  (∀ name, ploidy_sex2id pld name ≠ -1 →
     ploidy_sex2id pld' name = ploidy_sex2id pld name) ∧
  let pld'' := (ploidy_add_sex pld other).2 in
  dflt pld'' = dflt pld ∧
  ploidy_nsex pld ≤ ploidy_nsex pld'' ≤ ploidy_nsex pld + 1 ∧
  ∀ name, ploidy_sex2id pld name ≠ -1 →
    ploidy_sex2id pld'' name = ploidy_sex2id pld name.
Proof.
  intros Hr Hins. destruct (reachable_ids _ _ _ _ Hr) as [Hreg _].
  assert (∀ p n, nsex p = nsex pld → sex2id p = sex2id pld →
            let a := (ploidy_add_sex p n).2 in
            nsex pld ≤ nsex a ≤ nsex pld + 1 ∧
            ∀ name, ploidy_sex2id pld name ≠ -1 →
              (default (-1) (sex2id a !! name)) = ploidy_sex2id pld name) as Hadd.
  { intros p n Hn Hs. cbn zeta.
    destruct (ploidy_add_sex_lookup p n) as [_ Hother]. cbn zeta in Hother.
    split.
    - unfold ploidy_add_sex, register_sex, khash_str2int_get.
      destruct (sex2id p !! n); [cbn [snd]; lia|].
      destruct (hts_expand0 _ _ _), (khash_str2int_inc _ _). cbn [snd nsex]. lia.
    - intros name. unfold ploidy_sex2id, khash_str2int_get.
      destruct (decide (name = n)) as [->|Hne].
      + unfold ploidy_add_sex, khash_str2int_get. rewrite Hs.
        destruct (sex2id pld !! n) as [v|] eqn:E; [|done]. intros _.
        cbn [snd]. rewrite Hs, E. done.
      + rewrite (Hother name Hne), Hs. by destruct (sex2id pld !! name). }
  assert (∀ p name, ploidy_sex2id p name = default (-1) (sex2id p !! name)) as Hdef.
  { intros p name. unfold ploidy_sex2id, khash_str2int_get. by destruct (sex2id p !! name). }
  unfold ploidy_nsex.
  assert (let pld'' := (ploidy_add_sex pld other).2 in
          dflt pld'' = dflt pld ∧ nsex pld ≤ nsex pld'' ≤ nsex pld + 1 ∧
          ∀ name, ploidy_sex2id pld name ≠ -1 →
            ploidy_sex2id pld'' name = ploidy_sex2id pld name) as Hsecond.
  { destruct (ploidy_add_sex_fields pld other) as (Hd' & _).
    destruct (Hadd pld other eq_refl eq_refl) as [Hb Hk].
    cbn zeta. split; [done|]. split; [lia|].
    intros name Hk'. rewrite Hdef. by apply Hk. }
  destruct (regidx_insert_registry _ _ _ _ _ Hins)
    as [Hd [(Hn & _ & Hs & _)|(tok & Hn & _ & Hs & _)]].
  - split; [done|]. split; [lia|]. split; [|exact Hsecond].
    intros name _. by rewrite !Hdef, Hs.
  - destruct (Hadd (set_tmp_str pld tok) tok eq_refl eq_refl) as [Hb Hk].
    split; [done|]. split; [lia|]. split; [|exact Hsecond].
    intros name Hk'. rewrite Hdef, Hs. by apply Hk.
Qed.

Lemma regidx_insert_keeps_ids_witness :
  reachable parse_tab 2 [EvRecord lineM1] tableM ∧
  regidx_insert parse_tab tableM (Some lineF2) = Return (0, tableB) ∧
  dflt tableB = dflt tableM ∧
  ploidy_nsex tableM ≤ ploidy_nsex tableB ≤ ploidy_nsex tableM + 1 ∧
  (∀ name, ploidy_sex2id tableM name ≠ -1 →
     ploidy_sex2id tableB name = ploidy_sex2id tableM name) ∧
  let pld'' := (ploidy_add_sex tableM "U").2 in
  dflt pld'' = dflt tableM ∧
  ploidy_nsex tableM ≤ ploidy_nsex pld'' ≤ ploidy_nsex tableM + 1 ∧
  ∀ name, ploidy_sex2id tableM name ≠ -1 →
    ploidy_sex2id pld'' name = ploidy_sex2id tableM name.
Proof.
  assert (regidx_insert parse_tab tableM (Some lineF2) = Return (0, tableB)) as H
    by (vm_compute; reflexivity).
  split_and!; [exact tableM_reachable|exact H|..];
    apply (regidx_insert_keeps_ids parse_tab 2 [EvRecord lineM1] tableM (Some lineF2)
             0 tableB "U" tableM_reachable H).
Defined.

(** ** More on the record parser *)

Lemma tokens_nil_at_nul ss : skip_space ss = ss → tokens ss = [] → at_nul ss = true.
Proof.
  intros Hfix Ht. destruct (at_nul ss) eqn:Hnul; [done|].
  by rewrite (tokens_head ss Hfix Hnul) in Ht.
Qed.

Lemma to_int_range v : - 2 ^ 31 ≤ to_int v ≤ INT_MAX.
Proof.
  unfold to_int, INT_MAX. pose proof (Z.mod_pos_bound (v + 2 ^ 31) (2 ^ 32)). lia.
Qed.

Lemma ploidy_add_sex_tmp_str pld s name :
  ploidy_add_sex (set_tmp_str pld s) name
  = ((ploidy_add_sex pld name).1, set_tmp_str (ploidy_add_sex pld name).2 s).
Proof.
  unfold ploidy_add_sex, register_sex, khash_str2int_get. cbn [set_tmp_str sex2id nsex msex id2sex].
  destruct (sex2id pld !! name); [done|].
  by destruct (hts_expand0 _ _ _), (khash_str2int_inc _ _).
Qed.

Section ParseMore.

Variable regidx_parse_tab : string → Z * (string * reg_t).

(** A parse that returns 0 has read a fifth token, and the ploidy it
    stores is an [int]. *)
Lemma ploidy_parse_ok_tokens line payload usr po :
  ploidy_parse regidx_parse_tab line payload usr = Return po → po_ret po = 0 →
  (5 ≤ length (tokens line))%nat ∧ - 2 ^ 31 ≤ ploidy (po_payload po) ≤ INT_MAX.
Proof.
  unfold ploidy_parse.
  destruct (regidx_parse_tab line) as [ret [chr reg]].
  destruct (Z.eqb_spec ret 0) as [->|Hne]; cbn [negb].
  2:{ by intros [= <-]. }
  pose proof (skip_fields_spec 3 (skip_space line) (skip_space_idemp _)) as Hsf.
  rewrite tokens_skip_space in Hsf.
  destruct (skip_fields 3 (skip_space line)) as [ss|] eqn:Hs.
  2:{ by intros [= <-]. }
  destruct Hsf as (Hfix & Ht & Hl).
  destruct (at_nul ss) eqn:Hnul.
  { by intros [= <-]. }
  destruct (at_nul (skip_nonspace ss) || ptr_eqb (skip_nonspace ss) ss); [done|].
  destruct (match khash_str2int_get _ _ with Some _ => _ | None => _ end).
  destruct (at_nul (skip_space (skip_nonspace ss))) eqn:Hnul5; [done|].
  destruct (strtol (skip_nonspace ss)) as [v se].
  destruct (ptr_eqb (skip_nonspace ss) se); [done|].
  intros [= <-] _. cbn [po_payload ploidy]. split; [|apply to_int_range].
  rewrite (tokens_head ss Hfix Hnul) in Ht.
  rewrite <- (tokens_skip_space (skip_nonspace ss)) in Ht.
  rewrite (tokens_head _ (skip_space_idemp _) Hnul5) in Ht.
  assert (2 ≤ length (drop 3 (tokens line)))%nat as Hd by (rewrite <- Ht; simpl; lia).
  rewrite length_drop in Hd. lia.
Qed.

(** Whatever a parse returns, it is the value of the tabular parser, -2
    or 0. *)
Lemma ploidy_parse_ret line payload usr po :
  ploidy_parse regidx_parse_tab line payload usr = Return po →
  po_ret po = 0 ∨
  (po_ret po = -2 ∧ (regidx_parse_tab line).1 = 0 ∧ (length (tokens line) < 4)%nat) ∨
  (po_ret po = (regidx_parse_tab line).1 ∧ (regidx_parse_tab line).1 ≠ 0).
Proof.
  unfold ploidy_parse.
  destruct (regidx_parse_tab line) as [ret [chr reg]].
  destruct (Z.eqb_spec ret 0) as [->|Hne]; cbn [negb fst].
  2:{ intros [= <-]. by right; right. }
  pose proof (skip_fields_spec 3 (skip_space line) (skip_space_idemp _)) as Hsf.
  rewrite tokens_skip_space in Hsf.
  destruct (skip_fields 3 (skip_space line)) as [ss|] eqn:Hs.
  2:{ intros [= <-]. right; left. cbn [po_ret]. split_and!; [done|done|lia]. }
  destruct Hsf as (Hfix & Ht & Hl).
  destruct (at_nul ss) eqn:Hnul.
  { intros [= <-]. right; left. cbn [po_ret]. split_and!; [done|done|].
    rewrite (tokens_at_nul ss Hnul) in Ht.
    assert (length (drop 3 (tokens line)) = 0)%nat as Hd by (by rewrite <- Ht).
    rewrite length_drop in Hd. lia. }
  destruct (at_nul (skip_nonspace ss) || ptr_eqb (skip_nonspace ss) ss); [done|].
  destruct (match khash_str2int_get _ _ with Some _ => _ | None => _ end).
  destruct (at_nul (skip_space (skip_nonspace ss))); [done|].
  destruct (strtol (skip_nonspace ss)) as [v se].
  destruct (ptr_eqb (skip_nonspace ss) se); [done|].
  intros [= <-]. by left.
Qed.

(** With the coordinates accepted and exactly four tokens, the parser
    calls [error]. *)
Lemma ploidy_parse_four_tokens line payload usr :
  (regidx_parse_tab line).1 = 0 → length (tokens line) = 4%nat →
  ploidy_parse regidx_parse_tab line payload usr = Exit (could_not_parse line).
Proof.
  intros Hacc Hlen.
  destruct (ploidy_parse regidx_parse_tab line payload usr) as [po|msg] eqn:Hp.
  - destruct (ploidy_parse_ret _ _ _ _ Hp) as [H0|[(_ & _ & H)|(_ & H)]]; [|lia|done].
    destruct (ploidy_parse_ok_tokens _ _ _ _ Hp H0). lia.
  - by destruct (ploidy_parse_exit _ _ _ _ _ Hp) as (-> & _).
Qed.

End ParseMore.

(** X5. A line with accepted coordinates and a sex token but no ploidy
    field (exactly four tokens) is fatal: the parser, the insertion of
    the line, and construction from a file that starts with it end in
    [error] with the message "Could not parse: " followed by the
    line. *)
Theorem ploidy_parse_missing_ploidy tab line payload pld lines d :
  (tab line).1 = 0 → length (tokens line) = 4%nat →
  ploidy_parse tab line payload pld = Exit (could_not_parse line) ∧
  regidx_insert tab pld (Some line) = Exit (could_not_parse line) ∧
  ploidy_init tab (Some (line :: lines)) d = Exit (could_not_parse line).
Proof.
  intros Hacc Hlen.
  assert (∀ p, regidx_insert tab p (Some line) = Exit (could_not_parse line)) as Hins.
  { intros p. unfold regidx_insert. by rewrite ploidy_parse_four_tokens. }
  split_and!; [by apply ploidy_parse_four_tokens|by apply Hins|].
  unfold ploidy_init. cbn [regidx_init_lines]. by rewrite Hins.
Qed.

Lemma ploidy_parse_missing_ploidy_witness :
  (parse_tab "chrX 1 10 M").1 = 0 ∧ length (tokens "chrX 1 10 M") = 4%nat ∧
  ploidy_parse parse_tab "chrX 1 10 M" payload0 tableB = Exit (could_not_parse "chrX 1 10 M") ∧
  regidx_insert parse_tab tableB (Some "chrX 1 10 M") = Exit (could_not_parse "chrX 1 10 M") ∧
  ploidy_init parse_tab (Some ["chrX 1 10 M"; lineM1]) 2 = Exit (could_not_parse "chrX 1 10 M").
Proof.
  assert ((parse_tab "chrX 1 10 M").1 = 0) as H1 by (vm_compute; reflexivity).
  assert (length (tokens "chrX 1 10 M") = 4%nat) as H2 by (vm_compute; reflexivity).
  split_and!; [exact H1|exact H2|..];
    apply (ploidy_parse_missing_ploidy parse_tab "chrX 1 10 M" payload0 tableB [lineM1] 2 H1 H2).
Defined.

(** X6. The outcomes of the parser on any line.  When the tabular parser
    returns a value other than 0, the parser returns that value and
    leaves payload and table alone.  When it returns 0, the parser
    returns -2 with the table unchanged if the line has fewer than four
    tokens, returns 0 only if the line has at least five tokens, and
    otherwise calls [error] with the line in the message; it calls
    [error] only on lines with at least four tokens. *)
Theorem ploidy_parse_outcomes tab line payload usr :
  match ploidy_parse tab line payload usr with
  | Return po =>
      if decide ((tab line).1 = 0)
      then (po_ret po = -2 ∧ (length (tokens line) < 4)%nat ∧ po_usr po = usr) ∨
           (po_ret po = 0 ∧ (5 ≤ length (tokens line))%nat)
      else po_ret po = (tab line).1 ∧ po_usr po = usr ∧ po_payload po = payload
  | Exit msg =>
      (tab line).1 = 0 ∧ (4 ≤ length (tokens line))%nat ∧ msg = could_not_parse line
  end.
Proof.
  destruct (ploidy_parse tab line payload usr) as [po|msg] eqn:Hp.
  - destruct (ploidy_parse_ret _ _ _ _ _ Hp) as [H0|[(H2 & Hacc & Hlen)|(Hret & Hne)]].
    + destruct (ploidy_parse_ok _ _ _ _ _ Hp H0) as (_ & _ & _ & _ & Htab).
      destruct (ploidy_parse_ok_tokens _ _ _ _ _ Hp H0) as [H5 _].
      rewrite Htab. cbn [fst]. rewrite decide_True by done. by right.
    + rewrite decide_True by done. left.
      destruct (ploidy_parse_fail _ _ _ _ _ Hp ltac:(lia)) as [-> _]. done.
    + rewrite decide_False by done.
      destruct (ploidy_parse_fail _ _ _ _ _ Hp ltac:(lia)) as [-> ->]. done.
  - destruct (ploidy_parse_exit _ _ _ _ _ Hp) as (-> & Hacc & Hlen). done.
Qed.

(** X7. A record parsed with return value 0 registers its sex token, the
    fourth token of the line, exactly as [ploidy_add_sex] does: the sex
    of the payload is the id [ploidy_add_sex] returns, and the table is
    the one [ploidy_add_sex] leaves, with the token in [tmp_str] and the
    bounds moved to the ploidy read, which is an [int].  The parser
    itself does not touch the index. *)
Theorem ploidy_parse_registers_sex tab line payload usr po :
  ploidy_parse tab line payload usr = Return po → po_ret po = 0 →
  ∃ tok,
    tokens line !! 3%nat = Some tok ∧
    sex (po_payload po) = (ploidy_add_sex usr tok).1 ∧
    po_usr po = set_min_max (set_tmp_str (ploidy_add_sex usr tok).2 tok)
                  (Z.min (min usr) (ploidy (po_payload po)))
                  (Z.max (max usr) (ploidy (po_payload po))) ∧
    ploidy_sex2id (po_usr po) tok = sex (po_payload po) ∧
    idx (po_usr po) = idx usr ∧
    - 2 ^ 31 ≤ ploidy (po_payload po) ≤ INT_MAX.
Proof.
  intros Hp H0.
  destruct (ploidy_parse_ok _ _ _ _ _ Hp H0) as (tok & Htok & Hsex & Husr & _).
  destruct (ploidy_parse_ok_tokens _ _ _ _ _ Hp H0) as [_ Hrange].
  rewrite ploidy_add_sex_tmp_str in Hsex, Husr. cbn [fst snd] in *.
  destruct (ploidy_add_sex_lookup usr tok) as [Hl _]. cbn zeta in Hl.
  destruct (ploidy_add_sex_fields usr tok) as (_ & _ & _ & Hidx).
  exists tok. split_and!; [done|done|done| |by rewrite Husr|apply Hrange|apply Hrange].
  rewrite Husr, Hsex. unfold ploidy_sex2id, khash_str2int_get. cbn. by rewrite Hl.
Qed.

Lemma ploidy_parse_registers_sex_witness :
  ∃ po,
    ploidy_parse parse_tab lineF2 payload0 tableM = Return po ∧ po_ret po = 0 ∧
    ∃ tok,
      tokens lineF2 !! 3%nat = Some tok ∧
      sex (po_payload po) = (ploidy_add_sex tableM tok).1 ∧
      po_usr po = set_min_max (set_tmp_str (ploidy_add_sex tableM tok).2 tok)
                    (Z.min (min tableM) (ploidy (po_payload po)))
                    (Z.max (max tableM) (ploidy (po_payload po))) ∧
      ploidy_sex2id (po_usr po) tok = sex (po_payload po) ∧
      idx (po_usr po) = idx tableM ∧
      - 2 ^ 31 ≤ ploidy (po_payload po) ≤ INT_MAX.
Proof.
  destruct (ploidy_parse parse_tab lineF2 payload0 tableM) as [po|msg] eqn:Hp;
    [|vm_compute in Hp; discriminate Hp].
  assert (po_ret po = 0) as H0.
  { vm_compute in Hp. injection Hp as <-. reflexivity. }
  exists po. split_and!; [reflexivity|exact H0|].
  exact (ploidy_parse_registers_sex parse_tab lineF2 payload0 tableM po Hp H0).
Defined.

(** ** Bounds of the table and of a query *)

Lemma visited_idx pld pld' seq pos :
  idx pld' = idx pld → visited pld' seq pos = visited pld seq pos.
Proof. intros H. unfold visited, stored. by rewrite H. Qed.

Lemma foldl_min_spec l a :
  foldl Z.min a l ≤ a ∧ (∀ x, x ∈ l → foldl Z.min a l ≤ x) ∧
  (foldl Z.min a l = a ∨ foldl Z.min a l ∈ l).
Proof.
  revert a. induction l as [|y l IH]; intros a; simpl.
  - split_and!; [lia|by intros x ?%elem_of_nil|by left].
  - destruct (IH (Z.min a y)) as (H1 & H2 & H3). split_and!.
    + lia.
    + intros x [->|Hin]%elem_of_cons; [lia|by apply H2].
    + destruct H3 as [H3|H3].
      * destruct (Z.min_spec a y) as [[_ E]|[_ E]].
        -- left. congruence.
        -- right. rewrite H3, E. apply list_elem_of_here.
      * right. by apply list_elem_of_further.
Qed.

Lemma foldl_max_spec l a :
  a ≤ foldl Z.max a l ∧ (∀ x, x ∈ l → x ≤ foldl Z.max a l) ∧
  (foldl Z.max a l = a ∨ foldl Z.max a l ∈ l).
Proof.
  revert a. induction l as [|y l IH]; intros a; simpl.
  - split_and!; [lia|by intros x ?%elem_of_nil|by left].
  - destruct (IH (Z.max a y)) as (H1 & H2 & H3). split_and!.
    + lia.
    + intros x [->|Hin]%elem_of_cons; [lia|by apply H2].
    + destruct H3 as [H3|H3].
      * destruct (Z.max_spec a y) as [[_ E]|[_ E]].
        -- right. rewrite H3, E. apply list_elem_of_here.
        -- left. congruence.
      * right. by apply list_elem_of_further.
Qed.

(** The running bounds after the loop are the minimum and the maximum of
    their start values and the ploidies that differ from the default. *)
Lemma reduce_minmax d recs buf mn mx buf' mn' mx' :
  reduce d recs buf mn mx = Some (buf', mn', mx') →
  mn' = foldl Z.min mn (nd_ploidies d recs) ∧ mx' = foldl Z.max mx (nd_ploidies d recs).
Proof.
  revert buf mn mx. unfold nd_ploidies.
  induction recs as [|sp recs IH]; intros buf mn mx; simpl.
  - by intros [= <- <- <-].
  - destruct (Z.eqb_spec (ploidy sp) d) as [Hd|Hd]; cbn [negb].
    + rewrite filter_cons_False by (by intros ?). apply IH.
    + rewrite filter_cons_True by done. cbn [fmap list_fmap foldl].
      destruct (store_opt buf (sex sp) (ploidy sp)) as [buf1|]; [|done].
      cbn [mbind option_bind]. rewrite ltb_min, ltb_max. apply IH.
Qed.

Lemma nd_ploidies_elem d recs p :
  p ∈ nd_ploidies d recs ↔ ∃ sp, sp ∈ recs ∧ ploidy sp ≠ d ∧ ploidy sp = p.
Proof.
  unfold nd_ploidies. rewrite list_elem_of_fmap. split.
  - intros (sp & -> & [Hne Hin]%list_elem_of_filter). by exists sp.
  - intros (sp & Hin & Hne & <-). exists sp. split; [done|].
    by apply list_elem_of_filter.
Qed.

Section BoundsProperties.

Variable regidx_parse_tab : string → Z * (string * reg_t).

(** The stored records after an insertion: those before, and the record
    parsed, at the end of its sequence. *)
Lemma regidx_insert_stored pld line r pld' :
  regidx_insert regidx_parse_tab pld line = Return (r, pld') →
  pld' = pld ∨
  ∃ chr reg sp,
    - 2 ^ 31 ≤ ploidy sp ≤ INT_MAX ∧
    min pld' = Z.min (min pld) (ploidy sp) ∧ max pld' = Z.max (max pld) (ploidy sp) ∧
    dflt pld' = dflt pld ∧
    ∀ seq, stored pld' seq
           = stored pld seq ++ (if decide (chr = seq) then [(reg, sp)] else []).
Proof.
  intros Hins.
  destruct (regidx_insert_inv _ _ _ _ _ Hins)
    as [[_ ->]|(l & po & tok & -> & _ & Hp & H0 & _ & Husr & _ & _ & ->)]; [by left|].
  right. exists (po_chr po), (po_reg po), (po_payload po).
  destruct (ploidy_parse_ok_tokens _ _ _ _ _ Hp H0) as [_ Hrange].
  destruct (ploidy_add_sex_fields (set_tmp_str pld tok) tok) as (Hd & _ & _ & Hidx).
  rewrite Husr. cbn [set_idx set_min_max min max dflt].
  split_and!; [apply Hrange|apply Hrange|done|done|done|].
  intros seq. unfold stored. cbn [set_idx set_min_max idx seq2regs]. rewrite Hidx.
  cbn [set_tmp_str idx].
  case_decide as Hc.
  - subst seq. by rewrite lookup_insert_eq.
  - rewrite lookup_insert_ne by done. by rewrite app_nil_r.
Qed.

Lemma reachable_bounds d h pld :
  reachable regidx_parse_tab d h pld → bounds_ok pld.
Proof.
  induction 1 as [|h pld line r pld' Hr IH Hins|h pld name Hr IH].
  - split; [simpl; lia|]. intros seq rp. unfold stored. simpl. rewrite lookup_empty.
    by intros ?%elem_of_nil.
  - destruct IH as [Hb Hst].
    destruct (regidx_insert_stored _ _ _ _ Hins)
      as [->|(chr & reg & sp & Hrange & Hmin & Hmax & Hd & Hstored)]; [done|].
    split; [lia|]. intros seq rp. rewrite Hstored, Hmin, Hmax.
    intros [Hin|Hin]%elem_of_app.
    + specialize (Hst seq rp Hin). lia.
    + case_decide; [|by apply elem_of_nil in Hin].
      apply list_elem_of_singleton in Hin as ->. cbn [snd]. lia.
  - destruct IH as [Hb Hst].
    destruct (ploidy_add_sex_fields pld name) as (Hd & Hmin & Hmax & Hidx).
    split; [lia|]. intros seq rp. unfold stored. rewrite Hidx, Hmin, Hmax. apply Hst.
Qed.

(** The ploidy of a record a query goes through lies within the bounds
    of a reachable table and is an [int]. *)
Lemma reachable_visited_ploidy d h pld seq pos sp :
  reachable regidx_parse_tab d h pld → sp ∈ visited pld seq pos →
  ploidy_min pld ≤ ploidy sp ≤ ploidy_max pld ∧ - 2 ^ 31 ≤ ploidy sp ≤ INT_MAX.
Proof.
  intros [Hb Hst]%reachable_bounds (r & Hin & _)%visited_stored.
  specialize (Hst seq (r, sp) Hin). cbn [snd] in Hst.
  unfold ploidy_min, ploidy_max.
  destruct (Z.ltb_spec (dflt pld) (min pld)), (Z.ltb_spec (max pld) (dflt pld)); lia.
Qed.

Lemma reachable_dflt_bounds d h pld :
  reachable regidx_parse_tab d h pld → ploidy_min pld ≤ dflt pld ≤ ploidy_max pld.
Proof.
  intros [Hb _]%reachable_bounds. unfold ploidy_min, ploidy_max.
  destruct (Z.ltb_spec (dflt pld) (min pld)), (Z.ltb_spec (max pld) (dflt pld)); lia.
Qed.

(** On a reachable table, the bounds a query leaves after its loop and
    collapse are both the default, or the minimum and the maximum of the
    non-default ploidies gone through. *)
Lemma reachable_collapse d h pld seq pos buf buf' mn mx :
  reachable regidx_parse_tab d h pld →
  reduce (dflt pld) (visited pld seq pos) buf INT_MAX (-1) = Some (buf', mn, mx) →
  let nd := nd_ploidies (dflt pld) (visited pld seq pos) in
  (collapse (dflt pld) mn mx = (dflt pld, dflt pld) ∧ ∀ p, p ∈ nd → p < 0) ∨
  (collapse (dflt pld) mn mx = (mn, mx) ∧ mn ∈ nd ∧ mx ∈ nd ∧ ∀ p, p ∈ nd → mn ≤ p ≤ mx).
Proof.
  intros Hr Hred nd. destruct (reduce_minmax _ _ _ _ _ _ _ _ Hred) as [Hmn Hmx].
  fold nd in Hmn, Hmx.
  destruct (foldl_min_spec nd INT_MAX) as (_ & Hmin_le & Hmin_in).
  destruct (foldl_max_spec nd (-1)) as (Hmax_ge & Hmax_le & Hmax_in).
  rewrite <- Hmn in *. rewrite <- Hmx in *.
  assert (∀ p, p ∈ nd → p ≤ INT_MAX) as Hint.
  { intros p (sp & Hin & _ & <-)%nd_ploidies_elem.
    by destruct (reachable_visited_ploidy _ _ _ _ _ _ Hr Hin) as [_ [_ ?]]. }
  unfold collapse. destruct (Z.eqb_spec mx (-1)) as [E|E].
  - left. split; [done|]. intros p Hp. specialize (Hmax_le p Hp). lia.
  - right. destruct Hmax_in as [?|Hmax_in]; [done|].
    split_and!; [done| |done|].
    + destruct Hmin_in as [Hmn'|?]; [|done].
      pose proof (Hmin_le mx Hmax_in). pose proof (Hint mx Hmax_in).
      replace mn with mx by lia. done.
    + intros p Hp. split; [by apply Hmin_le|by apply Hmax_le].
Qed.

End BoundsProperties.

(** ** Queries on reachable tables *)

Section QueryMore.

Variable regidx_parse_tab : string → Z * (string * reg_t).

(** A query that finds a region on a reachable table, in terms of the
    reduction: the same form whether or not outputs are asked for. *)
Lemma ploidy_query_reachable d h pld seq pos out :
  reachable regidx_parse_tab d h pld → fits pld (q_sex2ploidy out) →
  visited pld seq pos ≠ [] →
  ∃ buf' mn mx,
    reduce (dflt pld) (visited pld seq pos) (filled pld <$> q_sex2ploidy out) INT_MAX (-1)
      = Some (buf', mn, mx) ∧
    ploidy_query pld seq pos out
      = Some (1, {| q_sex2ploidy := buf';
                    q_min := assign (q_min out) (collapse (dflt pld) mn mx).1;
                    q_max := assign (q_max out) (collapse (dflt pld) mn mx).2 |}) ∧
    (q_sex2ploidy out = None → buf' = None) ∧
    ∀ b, q_sex2ploidy out = Some b →
      ∃ b', buf' = Some b' ∧ length b' = length b ∧
        ∀ s, 0 ≤ s →
          b' !! Z.to_nat s = match last (non_default (dflt pld) s (visited pld seq pos)) with
                             | Some sp => Some (ploidy sp)
                             | None => filled pld b !! Z.to_nat s
                             end.
Proof.
  intros Hr Hfit Hv. destruct out as [[b|] m x]; cbn [q_sex2ploidy q_min q_max fits] in *.
  - destruct (reduce_slots (dflt pld) (visited pld seq pos) (filled pld b) INT_MAX (-1))
      as (b' & mn & mx & Hred & Hlen & Hslot).
    { intros sp Hin. rewrite filled_length by done.
      pose proof (reachable_visited _ _ _ _ _ _ _ Hr Hin). lia. }
    exists (Some b'), mn, mx. split; [done|].
    rewrite ploidy_query_some by done. cbn [q_sex2ploidy q_min q_max fmap option_fmap option_map].
    rewrite Hred. split; [done|]. split; [done|].
    intros ? [= <-]. exists b'. rewrite filled_length in Hlen by done. done.
  - destruct (reduce_no_vector (dflt pld) (visited pld seq pos) INT_MAX (-1))
      as (mn & mx & Hred).
    exists None, mn, mx. cbn [fmap option_fmap option_map]. split; [done|].
    split; [|done].
    rewrite ploidy_query_eq. cbn [q_sex2ploidy q_min q_max fill_dflt_opt mbind option_bind].
    rewrite Hred. destruct (decide (visited pld seq pos = [])); [done|].
    by destruct m, x.
Qed.

End QueryMore.

(** X8. The table-wide bounds are bounds: in a reachable table the
    ploidy of every stored record, and the default ploidy, lie between
    [ploidy_min] and [ploidy_max]. *)
Theorem ploidy_bounds_stored tab d h pld :
  reachable tab d h pld →
  ploidy_min pld ≤ dflt pld ≤ ploidy_max pld ∧
  ∀ seq rp, rp ∈ stored pld seq → ploidy_min pld ≤ ploidy rp.2 ≤ ploidy_max pld.
Proof.
  intros Hr. split; [by eapply reachable_dflt_bounds|].
  destruct (reachable_bounds _ _ _ _ Hr) as [Hb Hst].
  intros seq rp Hin. specialize (Hst seq rp Hin). unfold ploidy_min, ploidy_max.
  destruct (Z.ltb_spec (dflt pld) (min pld)), (Z.ltb_spec (max pld) (dflt pld)); lia.
Qed.

Lemma ploidy_bounds_stored_witness :
  reachable parse_tab 2 [EvRecord lineM1] tableM ∧
  ploidy_min tableM ≤ dflt tableM ≤ ploidy_max tableM ∧
  ∀ seq rp, rp ∈ stored tableM seq → ploidy_min tableM ≤ ploidy rp.2 ≤ ploidy_max tableM.
Proof.
  split; [exact tableM_reachable|].
  exact (ploidy_bounds_stored parse_tab 2 [EvRecord lineM1] tableM tableM_reachable).
Defined.

(** X9. On a reachable table, with a vector of at least [ploidy_nsex]
    slots or none, a query always has a result, and everything it
    reports lies within the table-wide bounds: the min and the max it
    writes, and each of the first [ploidy_nsex] slots of the vector, are
    between [ploidy_min] and [ploidy_max]. *)
Theorem ploidy_query_within_bounds tab d h pld seq pos out :
  reachable tab d h pld → fits pld (q_sex2ploidy out) →
  ∃ ret out',
    ploidy_query pld seq pos out = Some (ret, out') ∧
    (∀ mn, q_min out' = Some mn → ploidy_min pld ≤ mn ≤ ploidy_max pld) ∧
    (∀ mx, q_max out' = Some mx → ploidy_min pld ≤ mx ≤ ploidy_max pld) ∧
    ∀ b', q_sex2ploidy out' = Some b' → ∀ s, 0 ≤ s < ploidy_nsex pld →
      ∃ v, b' !! Z.to_nat s = Some v ∧ ploidy_min pld ≤ v ≤ ploidy_max pld.
Proof.
  intros Hr Hfit. pose proof (reachable_dflt_bounds _ _ _ _ Hr) as Hd.
  destruct (decide (visited pld seq pos = [])) as [Hv|Hv].
  - rewrite ploidy_query_none by done. eexists _, _. split; [done|].
    cbn [q_min q_max q_sex2ploidy]. split_and!.
    + intros mn. destruct (q_min out); [|done]. by intros [= <-].
    + intros mx. destruct (q_max out); [|done]. by intros [= <-].
    + intros b'. destruct (q_sex2ploidy out) as [b|]; [|done]. intros [= <-] s Hs.
      exists (dflt pld). split; [by apply filled_lookup|done].
  - destruct (ploidy_query_reachable _ _ _ _ _ _ out Hr Hfit Hv)
      as (buf' & mn & mx & Hred & -> & Hnone & Hvec).
    eexists _, _. split; [done|]. cbn [q_min q_max q_sex2ploidy].
    assert (∀ p, p ∈ nd_ploidies (dflt pld) (visited pld seq pos) →
                 ploidy_min pld ≤ p ≤ ploidy_max pld) as Hnd.
    { intros p (sp & Hin & _ & <-)%nd_ploidies_elem.
      by destruct (reachable_visited_ploidy _ _ _ _ _ _ _ Hr Hin). }
    assert (ploidy_min pld ≤ (collapse (dflt pld) mn mx).1 ≤ ploidy_max pld ∧
            ploidy_min pld ≤ (collapse (dflt pld) mn mx).2 ≤ ploidy_max pld) as [Hc1 Hc2].
    { destruct (reachable_collapse _ _ _ _ _ _ _ _ _ _ Hr Hred)
        as [[-> _]|(-> & H1 & H2 & _)]; cbn [fst snd]; [done|].
      split; by apply Hnd. }
    split_and!.
    + intros mn'. destruct (q_min out); [|done]. by intros [= <-].
    + intros mx'. destruct (q_max out); [|done]. by intros [= <-].
    + intros b' -> s Hs. destruct (q_sex2ploidy out) as [b|] eqn:Eb;
        [|by specialize (Hnone eq_refl)].
      destruct (Hvec b eq_refl) as (b'' & [= <-] & Hlen & Hslot).
      rewrite Hslot by lia.
      destruct (last _) as [sp|] eqn:El.
      * exists (ploidy sp). split; [done|].
        apply last_Some_elem_of, list_elem_of_filter in El as [_ Hin].
        by destruct (reachable_visited_ploidy _ _ _ _ _ _ _ Hr Hin).
      * exists (dflt pld). split; [by apply filled_lookup|done].
Qed.

Lemma ploidy_query_within_bounds_witness :
  reachable parse_tab 2 [EvRecord lineM1] tableM ∧
  fits tableM (q_sex2ploidy out3) ∧
  ∃ ret out',
    ploidy_query tableM "chrX" 5000 out3 = Some (ret, out') ∧
    (∀ mn, q_min out' = Some mn → ploidy_min tableM ≤ mn ≤ ploidy_max tableM) ∧
    (∀ mx, q_max out' = Some mx → ploidy_min tableM ≤ mx ≤ ploidy_max tableM) ∧
    ∀ b', q_sex2ploidy out' = Some b' → ∀ s, 0 ≤ s < ploidy_nsex tableM →
      ∃ v, b' !! Z.to_nat s = Some v ∧ ploidy_min tableM ≤ v ≤ ploidy_max tableM.
Proof.
  assert (fits tableM (q_sex2ploidy out3)) as H.
  { assert (nsex tableM = 1) as E by (vm_compute; reflexivity).
    simpl. rewrite E. simpl. lia. }
  split_and!; [exact tableM_reachable|exact H|].
  exact (ploidy_query_within_bounds parse_tab 2 [EvRecord lineM1] tableM "chrX" 5000 out3
           tableM_reachable H).
Defined.

(** X10. On a reachable table, when a record gone through has a ploidy
    that differs from the default and is not negative, the query returns
    1 and the min and max it writes are exactly the smallest and the
    largest ploidy among the records gone through that differ from the
    default; records at the default do not enter them. *)
Theorem ploidy_query_min_max_exact tab d h pld seq pos out :
  reachable tab d h pld → fits pld (q_sex2ploidy out) →
  (∃ sp, sp ∈ visited pld seq pos ∧ ploidy sp ≠ dflt pld ∧ 0 ≤ ploidy sp) →
  ∃ out' mn mx,
    ploidy_query pld seq pos out = Some (1, out') ∧
    (is_Some (q_min out) → q_min out' = Some mn) ∧
    (q_min out = None → q_min out' = None) ∧
    (is_Some (q_max out) → q_max out' = Some mx) ∧
    (q_max out = None → q_max out' = None) ∧
    mn ∈ nd_ploidies (dflt pld) (visited pld seq pos) ∧
    mx ∈ nd_ploidies (dflt pld) (visited pld seq pos) ∧
    ∀ p, p ∈ nd_ploidies (dflt pld) (visited pld seq pos) → mn ≤ p ≤ mx.
Proof.
  intros Hr Hfit (sp & Hin & Hne & Hpos).
  assert (visited pld seq pos ≠ []) as Hv by (intros E; rewrite E in Hin; by apply elem_of_nil in Hin).
  destruct (ploidy_query_reachable _ _ _ _ _ _ out Hr Hfit Hv)
    as (buf' & mn & mx & Hred & -> & _).
  assert (ploidy sp ∈ nd_ploidies (dflt pld) (visited pld seq pos)) as Hsp
    by (apply nd_ploidies_elem; by exists sp).
  destruct (reachable_collapse _ _ _ _ _ _ _ _ _ _ Hr Hred)
    as [[_ Hneg]|(-> & H1 & H2 & H3)].
  - specialize (Hneg _ Hsp). lia.
  - eexists _, mn, mx. cbn [fst snd q_min q_max].
    destruct (assign_written (q_min out) mn) as [Hm1 Hm2].
    destruct (assign_written (q_max out) mx) as [Hx1 Hx2].
    done.
Qed.

Lemma ploidy_query_min_max_exact_witness :
  reachable parse_tab 2 [EvRecord lineM1] tableM ∧
  fits tableM (q_sex2ploidy out3) ∧
  (∃ sp, sp ∈ visited tableM "chrX" 5000 ∧ ploidy sp ≠ dflt tableM ∧ 0 ≤ ploidy sp) ∧
  ploidy_query tableM "chrX" 5000 out3
    = Some (1, {| q_sex2ploidy := Some [1; 7]; q_min := Some 1; q_max := Some 1 |}) ∧
  ∃ out' mn mx,
    ploidy_query tableM "chrX" 5000 out3 = Some (1, out') ∧
    (is_Some (q_min out3) → q_min out' = Some mn) ∧
    (q_min out3 = None → q_min out' = None) ∧
    (is_Some (q_max out3) → q_max out' = Some mx) ∧
    (q_max out3 = None → q_max out' = None) ∧
    mn ∈ nd_ploidies (dflt tableM) (visited tableM "chrX" 5000) ∧
    mx ∈ nd_ploidies (dflt tableM) (visited tableM "chrX" 5000) ∧
    ∀ p, p ∈ nd_ploidies (dflt tableM) (visited tableM "chrX" 5000) → mn ≤ p ≤ mx.
Proof.
  assert (fits tableM (q_sex2ploidy out3)) as H1.
  { assert (nsex tableM = 1) as E by (vm_compute; reflexivity).
    simpl. rewrite E. simpl. lia. }
  assert (∃ sp, sp ∈ visited tableM "chrX" 5000 ∧ ploidy sp ≠ dflt tableM ∧ 0 ≤ ploidy sp) as H2.
  { assert (visited tableM "chrX" 5000 = [{| sex := 0; ploidy := 1 |}]) as ->
      by (vm_compute; reflexivity).
    exists {| sex := 0; ploidy := 1 |}.
    split_and!; [apply list_elem_of_here|vm_compute; discriminate|simpl; lia]. }
  split_and!; [exact tableM_reachable|exact H1|exact H2|vm_compute; reflexivity|].
  exact (ploidy_query_min_max_exact parse_tab 2 [EvRecord lineM1] tableM "chrX" 5000 out3
           tableM_reachable H1 H2).
Defined.

(** X11. The start value -1 of the running maximum hides negative
    ploidies: on a reachable table, when a region is found and every
    record gone through that differs from the default has a negative
    ploidy, the query returns 1 and writes the default ploidy to both
    min and max, while the vector, when one is passed, receives the
    negative values: the slot of every sex that has such a record holds
    a negative ploidy. *)
Theorem ploidy_query_negative_hidden tab d h pld seq pos out :
  reachable tab d h pld → fits pld (q_sex2ploidy out) →
  visited pld seq pos ≠ [] →
  (∀ sp, sp ∈ visited pld seq pos → ploidy sp ≠ dflt pld → ploidy sp < 0) →
  ∃ out',
    ploidy_query pld seq pos out = Some (1, out') ∧
    (is_Some (q_min out) → q_min out' = Some (dflt pld)) ∧
    (q_min out = None → q_min out' = None) ∧
    (is_Some (q_max out) → q_max out' = Some (dflt pld)) ∧
    (q_max out = None → q_max out' = None) ∧
    (is_Some (q_sex2ploidy out) →
     ∃ b', q_sex2ploidy out' = Some b' ∧
       ∀ sp, sp ∈ visited pld seq pos → ploidy sp ≠ dflt pld →
         ∃ v, b' !! Z.to_nat (sex sp) = Some v ∧ v < 0 ∧
              v = slot_value (dflt pld) (sex sp) (visited pld seq pos)).
Proof.
  intros Hr Hfit Hv Hneg.
  destruct (ploidy_query_reachable _ _ _ _ _ _ out Hr Hfit Hv)
    as (buf' & mn & mx & Hred & -> & _ & Hvec).
  destruct (reduce_minmax _ _ _ _ _ _ _ _ Hred) as [_ Hmx].
  destruct (foldl_max_spec (nd_ploidies (dflt pld) (visited pld seq pos)) (-1))
    as (Hge & Hle & Hin).
  rewrite <- Hmx in *.
  assert (mx = -1) as ->.
  { destruct Hin as [|(sp & Hsp & Hne & E)%nd_ploidies_elem]; [done|].
    specialize (Hneg sp Hsp Hne). lia. }
  eexists. split; [done|]. cbn [q_min q_max q_sex2ploidy collapse Z.eqb fst snd].
  destruct (assign_written (q_min out) (dflt pld)) as [Hm1 Hm2].
  destruct (assign_written (q_max out) (dflt pld)) as [Hx1 Hx2].
  split_and!; [done|done|done|done|].
  intros [b Hb]. destruct (Hvec b Hb) as (b' & -> & _ & Hslot).
  exists b'. split; [done|]. intros sp Hsp Hne.
  pose proof (reachable_visited _ _ _ _ _ _ _ Hr Hsp) as Hsex.
  rewrite Hslot by lia. unfold slot_value.
  assert (sp ∈ non_default (dflt pld) (sex sp) (visited pld seq pos)) as Hnd
    by (by apply list_elem_of_filter).
  destruct (last (non_default (dflt pld) (sex sp) (visited pld seq pos))) as [sp'|] eqn:El.
  - exists (ploidy sp'). split; [done|]. split; [|done].
    apply last_Some_elem_of, list_elem_of_filter in El as [[_ Hne'] Hin'].
    by apply Hneg.
  - apply last_None in El. rewrite El in Hnd. by apply elem_of_nil in Hnd.
Qed.

Lemma tableNeg_reachable :
  reachable parse_tab 2 [EvRecord "chrX 1 10 M -5"] tableNeg.
Proof.
  assert (regidx_insert parse_tab (ploidy_new 2) (Some "chrX 1 10 M -5") = Return (0, tableNeg))
    as Hins by (vm_compute; reflexivity).
  exact (reach_insert parse_tab 2 [] (ploidy_new 2) (Some "chrX 1 10 M -5") 0 tableNeg
           (reach_new parse_tab 2) Hins).
Defined.

Lemma ploidy_query_negative_hidden_witness :
  reachable parse_tab 2 [EvRecord "chrX 1 10 M -5"] tableNeg ∧
  fits tableNeg (q_sex2ploidy out3) ∧
  visited tableNeg "chrX" 5 ≠ [] ∧
  (∀ sp, sp ∈ visited tableNeg "chrX" 5 → ploidy sp ≠ dflt tableNeg → ploidy sp < 0) ∧
  ploidy_query tableNeg "chrX" 5 out3
    = Some (1, {| q_sex2ploidy := Some [-5; 7]; q_min := Some 2; q_max := Some 2 |}) ∧
  ∃ out',
    ploidy_query tableNeg "chrX" 5 out3 = Some (1, out') ∧
    (is_Some (q_min out3) → q_min out' = Some (dflt tableNeg)) ∧
    (q_min out3 = None → q_min out' = None) ∧
    (is_Some (q_max out3) → q_max out' = Some (dflt tableNeg)) ∧
    (q_max out3 = None → q_max out' = None) ∧
    (is_Some (q_sex2ploidy out3) →
     ∃ b', q_sex2ploidy out' = Some b' ∧
       ∀ sp, sp ∈ visited tableNeg "chrX" 5 → ploidy sp ≠ dflt tableNeg →
         ∃ v, b' !! Z.to_nat (sex sp) = Some v ∧ v < 0 ∧
              v = slot_value (dflt tableNeg) (sex sp) (visited tableNeg "chrX" 5)).
Proof.
  assert (visited tableNeg "chrX" 5 = [{| sex := 0; ploidy := -5 |}]) as Hvis
    by (vm_compute; reflexivity).
  assert (fits tableNeg (q_sex2ploidy out3)) as H1.
  { assert (nsex tableNeg = 1) as E by (vm_compute; reflexivity).
    simpl. rewrite E. simpl. lia. }
  assert (visited tableNeg "chrX" 5 ≠ []) as H2 by (by rewrite Hvis).
  assert (∀ sp, sp ∈ visited tableNeg "chrX" 5 → ploidy sp ≠ dflt tableNeg → ploidy sp < 0)
    as H3.
  { rewrite Hvis. intros sp ->%list_elem_of_singleton _. simpl. lia. }
  split_and!; [exact tableNeg_reachable|exact H1|exact H2|exact H3|vm_compute; reflexivity|].
  exact (ploidy_query_negative_hidden parse_tab 2 _ tableNeg "chrX" 5 out3
           tableNeg_reachable H1 H2 H3).
Defined.

(** X12. A query keeps to the vector: on a reachable table, with a
    vector of at least [ploidy_nsex] slots, the query has a result, the
    vector keeps its length, and every slot from index [ploidy_nsex] on
    is left as the caller passed it. *)
Theorem ploidy_query_vector_tail tab d h pld seq pos b m x :
  reachable tab d h pld → ploidy_nsex pld ≤ Z.of_nat (length b) →
  ∃ ret out' b',
    ploidy_query pld seq pos {| q_sex2ploidy := Some b; q_min := m; q_max := x |}
      = Some (ret, out') ∧
    q_sex2ploidy out' = Some b' ∧ length b' = length b ∧
    ∀ i, (Z.to_nat (ploidy_nsex pld) ≤ i)%nat → b' !! i = b !! i.
Proof.
  unfold ploidy_nsex. intros Hr Hfit.
  destruct (reachable_ids _ _ _ _ Hr) as [[Hn _] _].
  assert (∀ i, (Z.to_nat (nsex pld) ≤ i)%nat → filled pld b !! i = b !! i) as Htail.
  { intros i Hi. unfold filled.
    rewrite lookup_app_r by (rewrite length_replicate; lia).
    rewrite length_replicate, lookup_drop. f_equal. lia. }
  destruct (decide (visited pld seq pos = [])) as [Hv|Hv].
  - rewrite ploidy_query_none by done. eexists _, _, _. split; [done|].
    cbn [q_sex2ploidy fmap option_fmap option_map].
    split_and!; [done|by apply filled_length|done].
  - destruct (ploidy_query_reachable _ _ _ _ _ _
                {| q_sex2ploidy := Some b; q_min := m; q_max := x |} Hr Hfit Hv)
      as (buf' & mn & mx & _ & -> & _ & Hvec).
    destruct (Hvec b eq_refl) as (b' & -> & Hlen & Hslot).
    eexists _, _, b'. split; [done|]. cbn [q_sex2ploidy].
    split_and!; [done|done|].
    intros i Hi. specialize (Hslot (Z.of_nat i) ltac:(lia)). rewrite Nat2Z.id in Hslot.
    rewrite Hslot, <- Htail by done.
    destruct (last _) as [sp|] eqn:El; [|done].
    apply last_Some_elem_of, list_elem_of_filter in El as [[Hs _] Hin].
    pose proof (reachable_visited _ _ _ _ _ _ _ Hr Hin). lia.
Qed.

Lemma ploidy_query_vector_tail_witness :
  reachable parse_tab 2 [EvRecord lineM1] tableM ∧
  ploidy_nsex tableM ≤ Z.of_nat (length [7; 8; 9]) ∧
  ploidy_query tableM "chrX" 5000
    {| q_sex2ploidy := Some [7; 8; 9]; q_min := None; q_max := None |}
    = Some (1, {| q_sex2ploidy := Some [1; 8; 9]; q_min := None; q_max := None |}) ∧
  ∃ ret out' b',
    ploidy_query tableM "chrX" 5000
      {| q_sex2ploidy := Some [7; 8; 9]; q_min := None; q_max := None |} = Some (ret, out') ∧
    q_sex2ploidy out' = Some b' ∧ length b' = length [7; 8; 9] ∧
    ∀ i, (Z.to_nat (ploidy_nsex tableM) ≤ i)%nat → b' !! i = [7; 8; 9] !! i.
Proof.
  assert (ploidy_nsex tableM ≤ Z.of_nat (length [7; 8; 9])) as H
    by (vm_compute; discriminate).
  split_and!; [exact tableM_reachable|exact H|vm_compute; reflexivity|].
  exact (ploidy_query_vector_tail parse_tab 2 [EvRecord lineM1] tableM "chrX" 5000
           [7; 8; 9] None None tableM_reachable H).
Defined.

(** X13. The return value of a query is the overlap test, whatever
    outputs are asked for: when the query has a result it returns 1 and
    a stored region of the sequence covers the position, or it returns 0
    and none does; it has a result unless a vector is passed; and with
    no output asked for it writes nothing. *)
Theorem ploidy_query_found pld seq pos out :
  match ploidy_query pld seq pos out with
  | Some (ret, _) =>
      (ret = 1 ∧ ∃ rp, rp ∈ stored pld seq ∧ covers pos rp.1) ∨
      (ret = 0 ∧ ∀ rp, rp ∈ stored pld seq → ¬ covers pos rp.1)
  | None => is_Some (q_sex2ploidy out)
  end ∧
  ∃ ret, ploidy_query pld seq pos {| q_sex2ploidy := None; q_min := None; q_max := None |}
         = Some (ret, {| q_sex2ploidy := None; q_min := None; q_max := None |}).
Proof.
  assert (visited pld seq pos = [] → ∀ rp, rp ∈ stored pld seq → ¬ covers pos rp.1) as Hno.
  { intros Hv rp Hin Hc.
    assert (visited pld seq pos ≠ []) as Hne by (apply visited_nonempty; by exists rp).
    done. }
  split; [|rewrite ploidy_query_eq; by eexists].
  rewrite ploidy_query_eq.
  destruct (_ && _ && _).
  { destruct (decide (visited pld seq pos = [])) as [Hv|Hv].
    - right. split; [done|by apply Hno].
    - left. split; [done|by apply visited_nonempty]. }
  destruct (q_sex2ploidy out) as [b|] eqn:Eb.
  - destruct (fill_dflt_opt pld (Some b)) as [buf|]; [|by eexists].
    cbn [mbind option_bind].
    destruct (decide (visited pld seq pos = [])) as [Hv|Hv].
    + right. split; [done|by apply Hno].
    + destruct (reduce _ _ _ _ _) as [[[buf' mn] mx]|]; [|by eexists].
      left. split; [done|by apply visited_nonempty].
  - cbn [fill_dflt_opt mbind option_bind].
    destruct (decide (visited pld seq pos = [])) as [Hv|Hv].
    + right. split; [done|by apply Hno].
    + destruct (reduce_no_vector (dflt pld) (visited pld seq pos) INT_MAX (-1))
        as (mn & mx & ->).
      left. split; [done|by apply visited_nonempty].
Qed.

(** X14. A sex added after construction has the default ploidy
    everywhere: on a reachable table, after [ploidy_add_sex] of a name
    not yet known, a query with a vector of at least the new
    [ploidy_nsex] slots has a result whose slot for the new id holds the
    default ploidy; and what a query without a vector returns and writes
    to min and max is what it was before the call. *)
Theorem ploidy_add_sex_then_query tab d h pld name seq pos b m x :
  reachable tab d h pld → ploidy_sex2id pld name = -1 →
  ploidy_nsex (ploidy_add_sex pld name).2 ≤ Z.of_nat (length b) →
  (∃ ret out' b',
     ploidy_query (ploidy_add_sex pld name).2 seq pos
       {| q_sex2ploidy := Some b; q_min := m; q_max := x |} = Some (ret, out') ∧
     q_sex2ploidy out' = Some b' ∧
     b' !! Z.to_nat (ploidy_add_sex pld name).1 = Some (dflt pld)) ∧
  ploidy_query (ploidy_add_sex pld name).2 seq pos
    {| q_sex2ploidy := None; q_min := m; q_max := x |}
  = ploidy_query pld seq pos {| q_sex2ploidy := None; q_min := m; q_max := x |}.
Proof.
  unfold ploidy_nsex. intros Hr Hnew Hfit.
  destruct (reachable_ids _ _ _ _ Hr) as [[Hn Hv] _].
  pose proof (reach_add_sex tab d h pld name Hr) as Hr'.
  destruct (ploidy_add_sex_fields pld name) as (Hd & _ & _ & Hidx). cbn zeta in Hd, Hidx.
  assert ((ploidy_add_sex pld name).1 = nsex pld ∧
          nsex (ploidy_add_sex pld name).2 = nsex pld + 1) as [Hid Hnsex].
  { revert Hnew.
    unfold ploidy_sex2id, ploidy_add_sex, register_sex, khash_str2int_get, khash_str2int_inc.
    destruct (sex2id pld !! name) as [v|] eqn:E.
    - intros ->. specialize (Hv name _ E). lia.
    - intros _. destruct (hts_expand0 _ _ _). cbn [fst snd nsex]. split; [lia|done]. }
  set (pld' := (ploidy_add_sex pld name).2) in *.
  pose proof (visited_idx pld pld' seq pos Hidx) as Hvis.
  split.
  - destruct (decide (visited pld' seq pos = [])) as [Hv'|Hv'].
    + rewrite ploidy_query_none by done. eexists _, _, _. split; [done|].
      cbn [q_sex2ploidy fmap option_fmap option_map]. split; [done|].
      rewrite Hid, <- Hd. apply filled_lookup. lia.
    + destruct (ploidy_query_reachable _ _ _ _ _ _
                  {| q_sex2ploidy := Some b; q_min := m; q_max := x |} Hr' Hfit Hv')
        as (buf' & mn & mx & _ & -> & _ & Hvec).
      destruct (Hvec b eq_refl) as (b' & -> & Hlen & Hslot).
      eexists _, _, b'. split; [done|]. cbn [q_sex2ploidy]. split; [done|].
      rewrite Hslot, Hid by lia.
      destruct (last _) as [sp|] eqn:El.
      * apply last_Some_elem_of, list_elem_of_filter in El as [[Hs _] Hin].
        rewrite Hvis in Hin.
        pose proof (reachable_visited _ _ _ _ _ _ _ Hr Hin). lia.
      * rewrite <- Hd. apply filled_lookup. lia.
  - rewrite !ploidy_query_eq. cbn [q_sex2ploidy q_min q_max fill_dflt_opt mbind option_bind].
    by rewrite Hvis, Hd.
Qed.

Lemma ploidy_add_sex_then_query_witness :
  reachable parse_tab 2 [EvRecord lineM1] tableM ∧
  ploidy_sex2id tableM "F" = -1 ∧
  ploidy_nsex (ploidy_add_sex tableM "F").2 ≤ Z.of_nat (length [7; 7]) ∧
  (∃ ret out' b',
     ploidy_query (ploidy_add_sex tableM "F").2 "chrX" 5000
       {| q_sex2ploidy := Some [7; 7]; q_min := None; q_max := Some 0 |} = Some (ret, out') ∧
     q_sex2ploidy out' = Some b' ∧
     b' !! Z.to_nat (ploidy_add_sex tableM "F").1 = Some (dflt tableM)) ∧
  ploidy_query (ploidy_add_sex tableM "F").2 "chrX" 5000
    {| q_sex2ploidy := None; q_min := None; q_max := Some 0 |}
  = ploidy_query tableM "chrX" 5000 {| q_sex2ploidy := None; q_min := None; q_max := Some 0 |}.
Proof.
  assert (ploidy_sex2id tableM "F" = -1) as H1 by (vm_compute; reflexivity).
  assert (ploidy_nsex (ploidy_add_sex tableM "F").2 ≤ Z.of_nat (length [7; 7])) as H2
    by (vm_compute; discriminate).
  split_and!; [exact tableM_reachable|exact H1|exact H2|..];
    apply (ploidy_add_sex_then_query parse_tab 2 [EvRecord lineM1] tableM "F" "chrX" 5000
             [7; 7] None (Some 0) tableM_reachable H1 H2).
Defined.

(** ** Lines of a preset string *)

Lemma length_append a b : String.length (a +:+ b) = (String.length a + String.length b)%nat.
Proof. induction a as [|c a IH]; [done|]. rewrite append_cons. simpl. by rewrite IH. Qed.

Lemma kputsn_prefix l rest :
  kputsn (l +:+ rest) (ptr_diff rest (l +:+ rest)) = l.
Proof.
  unfold kputsn, ptr_diff. rewrite length_append.
  replace (String.length l + String.length rest - String.length rest)%nat
    with (String.length l) by lia.
  induction l as [|c l IH]; [by destruct rest|].
  rewrite append_cons. simpl. by rewrite IH.
Qed.

Lemma skip_to_eol_line l sep rest :
  no_eol l = true → is_eol sep = true →
  skip_to_eol (l +:+ sep +:+ rest) = sep +:+ rest.
Proof.
  intros Hl Hsep. induction l as [|c l IH].
  - destruct sep as [|c r]; [done|]. cbn [is_eol] in Hsep.
    apply andb_true_iff in Hsep as [Hc _]. change ("" +:+ ?x) with x.
    rewrite append_cons. cbn [skip_to_eol].
    destruct (nat_of_ascii c =? 13)%nat; [by rewrite andb_false_r|].
    simpl in Hc. rewrite Hc. by rewrite andb_false_r.
  - cbn [no_eol] in Hl. apply andb_true_iff in Hl as [Hc Hl].
    rewrite append_cons. cbn [skip_to_eol]. rewrite Hc. by apply IH.
Qed.

Lemma skip_space_sep sep rest :
  all_space sep = true → skip_space (sep +:+ rest) = skip_space rest.
Proof.
  induction sep as [|c sep IH]; [done|]. cbn [all_space].
  intros [Hc Hs]%andb_true_iff. rewrite append_cons. cbn [skip_space].
  rewrite Hc, (isspace_not_nul c Hc). cbn [negb andb]. by apply IH.
Qed.

Lemma plain_line_start l rest :
  plain_line l = true →
  at_nul (l +:+ rest) = false ∧ skip_space (l +:+ rest) = l +:+ rest ∧ no_eol l = true.
Proof.
  destruct l as [|c l]; [done|]. cbn [plain_line].
  intros [Hc Hl]%andb_true_iff. apply negb_true_iff in Hc.
  pose proof Hl as Hl'. cbn [no_eol] in Hl'.
  apply andb_true_iff in Hl' as [[[Hn _]%andb_true_iff _]%andb_true_iff _].
  apply negb_true_iff in Hn.
  rewrite append_cons. cbn [at_nul skip_space]. rewrite Hn, Hc. done.
Qed.

Lemma skip_space_unlines sep lines :
  forallb plain_line lines = true →
  skip_space (unlines sep lines) = unlines sep lines.
Proof.
  destruct lines as [|l lines]; [done|]. cbn [forallb unlines].
  intros [Hl _]%andb_true_iff. by destruct (plain_line_start l (sep +:+ unlines sep lines) Hl) as (_ & ? & _).
Qed.

Lemma is_eol_all_space sep : is_eol sep = true → all_space sep = true.
Proof. destruct sep; [done|]. cbn [is_eol]. by intros [_ ?]%andb_true_iff. Qed.

Section LinesProperties.

Variable regidx_parse_tab : string → Z * (string * reg_t).

(** The loop over a preset string made of plain lines inserts the lines
    one by one. *)
Lemma init_string_loop_unlines sep lines fuel pld :
  forallb plain_line lines = true → is_eol sep = true →
  (String.length (unlines sep lines) ≤ fuel)%nat →
  init_string_loop regidx_parse_tab fuel (unlines sep lines) pld
  = insert_lines regidx_parse_tab lines pld.
Proof.
  intros Hlines Hsep. revert fuel pld.
  induction lines as [|l lines IH]; intros fuel pld Hfuel.
  - by destruct fuel.
  - cbn [forallb] in Hlines. apply andb_true_iff in Hlines as [Hl Hlines].
    cbn [unlines insert_lines] in *.
    set (rest := unlines sep lines) in *.
    destruct (plain_line_start l (sep +:+ rest) Hl) as (Hnul & Hfix & Hne).
    destruct fuel as [|fuel].
    { destruct l; [done|]. rewrite append_cons in Hfuel. simpl in Hfuel. lia. }
    cbn [init_string_loop]. rewrite Hnul, Hfix.
    rewrite (skip_to_eol_line l sep rest Hne Hsep), kputsn_prefix.
    rewrite (skip_space_sep sep rest (is_eol_all_space sep Hsep)).
    unfold rest. rewrite (skip_space_unlines sep lines Hlines).
    destruct (regidx_insert _ _ _) as [[r pld']|]; [|done].
    cbn [obind snd]. apply IH; [done|].
    fold rest. rewrite !length_append in Hfuel.
    destruct l; [done|]. simpl in Hfuel. lia.
Qed.

(** A file read without a failing line inserts its lines one by one. *)
Lemma regidx_init_lines_insert_lines lines pld pld' :
  regidx_init_lines regidx_parse_tab lines pld = Return (Some pld') →
  insert_lines regidx_parse_tab lines pld = Return pld'.
Proof.
  revert pld. induction lines as [|l lines IH]; intros pld; cbn [regidx_init_lines insert_lines].
  - cbn [regidx_insert obind snd]. by intros [= <-].
  - destruct (regidx_insert regidx_parse_tab pld (Some l)) as [[r p1]|]; [|done].
    cbn [obind fst snd]. destruct (negb (r =? 0)); [done|]. apply IH.
Qed.

End LinesProperties.

(** X15. The preset string is read line by line: for a string made of
    lines that are not empty, do not start with white space and hold no
    line break, each followed by a separator of white space that starts
    with a line feed or a carriage return, construction from the string
    inserts exactly these lines, in order, going on after an insertion
    that fails, and then ends the input. *)
Theorem ploidy_init_string_lines tab sep lines d :
  forallb plain_line lines = true → is_eol sep = true →
  ploidy_init_string tab (unlines sep lines) d
  = obind (insert_lines tab lines (ploidy_new d)) (λ pld, Return (Some pld)).
Proof.
  intros Hlines Hsep. unfold ploidy_init_string.
  rewrite init_string_loop_unlines by done.
  by destruct (insert_lines tab lines (ploidy_new d)).
Qed.

Lemma ploidy_init_string_lines_witness :
  forallb plain_line [lineM1; badLine; lineF2] = true ∧
  is_eol (String (ascii_of_nat 13) nl) = true ∧
  ploidy_init_string parse_tab (unlines (String (ascii_of_nat 13) nl) [lineM1; badLine; lineF2]) 2
    = Return (Some tableB) ∧
  ploidy_init_string parse_tab (unlines (String (ascii_of_nat 13) nl) [lineM1; badLine; lineF2]) 2
  = obind (insert_lines parse_tab [lineM1; badLine; lineF2] (ploidy_new 2))
      (λ pld, Return (Some pld)).
Proof.
  assert (forallb plain_line [lineM1; badLine; lineF2] = true) as H1
    by (vm_compute; reflexivity).
  assert (is_eol (String (ascii_of_nat 13) nl) = true) as H2 by (vm_compute; reflexivity).
  split_and!; [exact H1|exact H2|vm_compute; reflexivity|].
  exact (ploidy_init_string_lines parse_tab (String (ascii_of_nat 13) nl)
           [lineM1; badLine; lineF2] 2 H1 H2).
Defined.

(** X16. The two constructors agree where both succeed: when
    construction from a file with the given lines returns a table, so
    that no insertion failed, construction from the preset string made
    of the same plain lines returns the same table. *)
Theorem ploidy_init_string_agrees tab sep lines d pld :
  forallb plain_line lines = true → is_eol sep = true →
  ploidy_init tab (Some lines) d = Return (Some pld) →
  ploidy_init_string tab (unlines sep lines) d = Return (Some pld).
Proof.
  intros Hlines Hsep Hfile. unfold ploidy_init in Hfile.
  apply regidx_init_lines_insert_lines in Hfile.
  unfold ploidy_init_string. rewrite init_string_loop_unlines by done.
  by rewrite Hfile.
Qed.

Lemma ploidy_init_string_agrees_witness :
  forallb plain_line [lineM1; lineF2] = true ∧ is_eol nl = true ∧
  ploidy_init parse_tab (Some [lineM1; lineF2]) 2 = Return (Some tableB) ∧
  ploidy_init_string parse_tab (unlines nl [lineM1; lineF2]) 2 = Return (Some tableB).
Proof.
  assert (forallb plain_line [lineM1; lineF2] = true) as H1 by (vm_compute; reflexivity).
  assert (is_eol nl = true) as H2 by (vm_compute; reflexivity).
  assert (ploidy_init parse_tab (Some [lineM1; lineF2]) 2 = Return (Some tableB)) as H3
    by (vm_compute; reflexivity).
  split_and!; [exact H1|exact H2|exact H3|].
  exact (ploidy_init_string_agrees parse_tab nl [lineM1; lineF2] 2 tableB H1 H2 H3).
Defined.

(** ** The table-wide bounds are attained *)

Section AttainedBounds.

Variable regidx_parse_tab : string → Z * (string * reg_t).

Lemma reachable_attained d h pld :
  reachable regidx_parse_tab d h pld →
  (min pld = dflt pld ∨ ∃ seq rp, rp ∈ stored pld seq ∧ ploidy rp.2 = min pld) ∧
  (max pld = dflt pld ∨ ∃ seq rp, rp ∈ stored pld seq ∧ ploidy rp.2 = max pld).
Proof.
  induction 1 as [|h pld line r pld' Hr IH Hins|h pld name Hr IH].
  - split; by left.
  - destruct (regidx_insert_stored _ _ _ _ _ Hins)
      as [->|(chr & reg & sp & _ & Hmin & Hmax & Hd & Hstored)]; [done|].
    assert (∀ seq rp, rp ∈ stored pld seq → rp ∈ stored pld' seq) as Hkeep.
    { intros seq rp Hin. rewrite Hstored. apply elem_of_app. by left. }
    assert ((reg, sp) ∈ stored pld' chr) as Hnew.
    { rewrite Hstored, decide_True by done. apply elem_of_app. right. apply list_elem_of_here. }
    rewrite Hmin, Hmax, Hd. destruct IH as [IHmin IHmax]. split.
    + destruct (Z.min_spec (min pld) (ploidy sp)) as [[_ ->]|[_ ->]].
      * destruct IHmin as [|(seq & rp & Hin & E)]; [by left|].
        right. exists seq, rp. split; [by apply Hkeep|done].
      * right. by exists chr, (reg, sp).
    + destruct (Z.max_spec (max pld) (ploidy sp)) as [[_ ->]|[_ ->]].
      * right. by exists chr, (reg, sp).
      * destruct IHmax as [|(seq & rp & Hin & E)]; [by left|].
        right. exists seq, rp. split; [by apply Hkeep|done].
  - destruct (ploidy_add_sex_fields pld name) as (Hd & Hmin & Hmax & Hidx).
    cbn zeta in *. unfold stored. rewrite Hd, Hmin, Hmax, Hidx. apply IH.
Qed.

End AttainedBounds.

(** X17. The table-wide bounds are attained: in a reachable table
    [ploidy_min] is the default ploidy or the ploidy of a stored record,
    and so is [ploidy_max]; with X8 they are the smallest and the
    largest of the default and the stored ploidies. *)
Theorem ploidy_bounds_attained tab d h pld :
  reachable tab d h pld →
  (ploidy_min pld = dflt pld ∨
   ∃ seq rp, rp ∈ stored pld seq ∧ ploidy rp.2 = ploidy_min pld) ∧
  (ploidy_max pld = dflt pld ∨
   ∃ seq rp, rp ∈ stored pld seq ∧ ploidy rp.2 = ploidy_max pld).
Proof.
  intros Hr. destruct (reachable_attained _ _ _ _ Hr) as [Hmin Hmax].
  unfold ploidy_min, ploidy_max.
  destruct (Z.ltb_spec (dflt pld) (min pld)), (Z.ltb_spec (max pld) (dflt pld));
    split; (by left) || done.
Qed.

Lemma ploidy_bounds_attained_witness :
  reachable parse_tab 2 [EvRecord lineM1] tableM ∧
  (ploidy_min tableM = dflt tableM ∨
   ∃ seq rp, rp ∈ stored tableM seq ∧ ploidy rp.2 = ploidy_min tableM) ∧
  (ploidy_max tableM = dflt tableM ∨
   ∃ seq rp, rp ∈ stored tableM seq ∧ ploidy rp.2 = ploidy_max tableM).
Proof.
  split; [exact tableM_reachable|].
  exact (ploidy_bounds_attained parse_tab 2 [EvRecord lineM1] tableM tableM_reachable).
Defined.

(** ** The ploidy field *)

Lemma strtol_digits_length acc s :
  (String.length (strtol_digits acc s).2 ≤ String.length s)%nat.
Proof.
  revert acc. induction s as [|c r IH]; intros acc; simpl; [lia|].
  destruct (is_digit c); simpl; [|lia]. specialize (IH (acc * 10 + (Z.of_nat (nat_of_ascii c) - 48))). lia.
Qed.

Lemma strtol_digits_head acc s :
  if head_digit s
  then (String.length (strtol_digits acc s).2 < String.length s)%nat
  else (strtol_digits acc s).2 = s.
Proof.
  destruct s as [|c r]; simpl; [done|].
  destruct (is_digit c); [|done].
  pose proof (strtol_digits_length (acc * 10 + (Z.of_nat (nat_of_ascii c) - 48)) r). lia.
Qed.

Lemma strip_sign_length s : (String.length (strip_sign s) ≤ String.length s)%nat.
Proof.
  destruct s as [|c r]; [done|].
  destruct c as [[] [] [] [] [] [] [] []]; simpl; lia.
Qed.

Lemma strtol_sign s :
  (match s with
   | String "-"%char r => (true, r)
   | String "+"%char r => (false, r)
   | _ => (false, s)
   end).2 = strip_sign s.
Proof.
  destruct s as [|c r]; [done|].
  by destruct c as [[] [] [] [] [] [] [] []].
Qed.

(** [strtol] converts exactly when the text after the white space starts
    like a number; then it moves forward. *)
Lemma strtol_conversion nptr :
  if numeric_prefix (skip_space nptr)
  then (String.length (strtol nptr).2 < String.length (skip_space nptr))%nat
  else strtol nptr = (0, nptr).
Proof.
  unfold strtol, numeric_prefix.
  pose proof (strtol_sign (skip_space nptr)) as Hs.
  pose proof (strip_sign_length (skip_space nptr)) as Hl.
  destruct (match skip_space nptr with
            | String "-"%char r => (true, r)
            | String "+"%char r => (false, r)
            | _ => (false, skip_space nptr)
            end) as [neg s1].
  cbn [snd] in Hs. subst s1.
  pose proof (strtol_digits_head 0 (strip_sign (skip_space nptr))) as Hd.
  destruct (strtol_digits 0 (strip_sign (skip_space nptr))) as [v e]. cbn [snd] in Hd.
  unfold ptr_eqb. destruct (head_digit (strip_sign (skip_space nptr))).
  - destruct (Nat.eqb_spec (String.length e) (String.length (strip_sign (skip_space nptr))));
      [lia|]. cbn [snd]. lia.
  - rewrite Hd, Nat.eqb_refl. done.
Qed.

Lemma not_digit c : is_nul c = true ∨ isspace c = true → is_digit c = false.
Proof.
  unfold is_nul, isspace, is_digit. intros H.
  destruct (Nat.leb_spec 48 (nat_of_ascii c)); [|done].
  destruct (Nat.leb_spec (nat_of_ascii c) 57); [|done]. exfalso.
  destruct H as [H|H].
  - apply Nat.eqb_eq in H. lia.
  - apply orb_true_iff in H as [H|H].
    + apply Nat.eqb_eq in H. lia.
    + apply andb_true_iff in H as [_ H]. apply Nat.leb_le in H. lia.
Qed.

Lemma token_head_digit r :
  head_digit (kputsn r (ptr_diff (skip_nonspace r) r)) = head_digit r.
Proof.
  destruct r as [|c r]; [done|].
  destruct (is_nul c) eqn:En.
  { rewrite kputsn_token_stop by (simpl; by rewrite En). simpl.
    symmetry. apply not_digit. by left. }
  destruct (isspace c) eqn:Es.
  { rewrite kputsn_token_stop by (simpl; by rewrite En, Es). simpl.
    symmetry. apply not_digit. by right. }
  by rewrite kputsn_token_cons.
Qed.

(** A token starts like a number exactly when the text it was cut from
    does. *)
Lemma numeric_prefix_token ss :
  skip_space ss = ss → at_nul ss = false →
  numeric_prefix (kputsn ss (ptr_diff (skip_nonspace ss) ss)) = numeric_prefix ss.
Proof.
  intros Hfix Hnul.
  destruct (skip_space_fix ss Hfix) as [?|(c & r & -> & En & Es)]; [congruence|].
  rewrite kputsn_token_cons by done. unfold numeric_prefix.
  destruct c as [[] [] [] [] [] [] [] []]; try reflexivity; apply token_head_digit.
Qed.

Lemma skip_nonspace_token_length ss :
  skip_space ss = ss → at_nul ss = false →
  (String.length (skip_nonspace ss) < String.length ss)%nat.
Proof.
  intros Hfix Hnul.
  destruct (skip_space_fix ss Hfix) as [?|(c & r & -> & En & Es)]; [congruence|].
  simpl. rewrite En, Es. simpl. pose proof (skip_nonspace_length r). lia.
Qed.

(** X18. The ploidy field decides between success and [error]: for a
    line with accepted coordinates and a fifth token, the parser returns
    0 when that token starts like a decimal integer (an optional sign
    and a digit; what follows the digits is ignored), and calls [error]
    with the line in the message when it does not. *)
Theorem ploidy_parse_ploidy_field tab line payload usr t5 :
  (tab line).1 = 0 → tokens line !! 4%nat = Some t5 →
  match ploidy_parse tab line payload usr with
  | Return po => po_ret po = 0 ∧ numeric_prefix t5 = true
  | Exit msg => msg = could_not_parse line ∧ numeric_prefix t5 = false
  end.
Proof.
  intros Hacc Ht5. unfold ploidy_parse.
  destruct (tab line) as [ret [chr reg]]. cbn [fst] in Hacc. subst ret. cbn [negb Z.eqb].
  pose proof (skip_fields_spec 3 (skip_space line) (skip_space_idemp _)) as Hsf.
  rewrite tokens_skip_space in Hsf. apply lookup_lt_Some in Ht5 as Hlen.
  destruct (skip_fields 3 (skip_space line)) as [ss|]; [|lia].
  destruct Hsf as (Hfix & Ht & _).
  assert (at_nul ss = false) as Hnul.
  { destruct (at_nul ss) eqn:E; [|done]. rewrite (tokens_at_nul ss E) in Ht.
    assert (length (drop 3 (tokens line)) = 0)%nat as Hd by (by rewrite <- Ht).
    rewrite length_drop in Hd. lia. }
  rewrite Hnul. rewrite (tokens_head ss Hfix Hnul) in Ht.
  set (se := skip_nonspace ss) in *.
  assert (tokens (skip_space se) !! 0%nat = Some t5) as H5.
  { rewrite tokens_skip_space.
    assert (drop 3 (tokens line) !! 1%nat = Some t5) as Hd by (by rewrite lookup_drop).
    by rewrite <- Ht in Hd. }
  assert (at_nul (skip_space se) = false) as Hnul5.
  { destruct (at_nul (skip_space se)) eqn:E; [|done].
    by rewrite (tokens_at_nul _ E) in H5. }
  assert (at_nul se = false) as Hnulse.
  { destruct (at_nul se) eqn:E; [|done].
    by rewrite tokens_skip_space, (tokens_at_nul _ E) in H5. }
  pose proof (skip_nonspace_token_length ss Hfix Hnul) as Hlt. fold se in Hlt.
  rewrite Hnulse. unfold ptr_eqb at 1.
  destruct (Nat.eqb_spec (String.length se) (String.length ss)) as [|_]; [lia|].
  cbn [orb].
  destruct (match khash_str2int_get _ _ with Some _ => _ | None => _ end).
  rewrite Hnul5.
  rewrite (tokens_head _ (skip_space_idemp _) Hnul5) in H5. cbn in H5.
  injection H5 as H5.
  pose proof (numeric_prefix_token (skip_space se) (skip_space_idemp _) Hnul5) as Hnp.
  rewrite H5 in Hnp.
  pose proof (strtol_conversion se) as Hconv. rewrite <- Hnp in Hconv.
  destruct (numeric_prefix t5).
  - destruct (strtol se) as [v e]. cbn [snd] in Hconv.
    pose proof (skip_space_length se). unfold ptr_eqb.
    destruct (Nat.eqb_spec (String.length se) (String.length e)); [lia|]. done.
  - rewrite Hconv. unfold ptr_eqb. rewrite Nat.eqb_refl. done.
Qed.

Lemma ploidy_parse_ploidy_field_witness :
  (parse_tab "chrX 1 10 M +2x 7").1 = 0 ∧
  tokens "chrX 1 10 M +2x 7" !! 4%nat = Some "+2x" ∧
  match ploidy_parse parse_tab "chrX 1 10 M +2x 7" payload0 tableM with
  | Return po => po_ret po = 0 ∧ numeric_prefix "+2x" = true
  | Exit msg => msg = could_not_parse "chrX 1 10 M +2x 7" ∧ numeric_prefix "+2x" = false
  end.
Proof.
  assert ((parse_tab "chrX 1 10 M +2x 7").1 = 0) as H1 by (vm_compute; reflexivity).
  assert (tokens "chrX 1 10 M +2x 7" !! 4%nat = Some "+2x") as H2 by (vm_compute; reflexivity).
  split_and!; [exact H1|exact H2|].
  exact (ploidy_parse_ploidy_field parse_tab "chrX 1 10 M +2x 7" payload0 tableM "+2x" H1 H2).
Defined.
